(** * LiteNotes: the note store, the front-matter parser, the inline markup
    renderer and the backlink query, the toolbar of the editor, the list of
    titles with its search box and the database page, embedded from the
    JavaScript sources.

    Modelling conventions.
    - A JavaScript string is the list of its code units, numbers below
      65536: [list N].  The white space of [String.prototype.trim] and of
      the regular expression class [\s] is 9 to 13, 32, 160, 5760, 8192 to
      8202, 8232, 8233, 8239, 8287, 12288 and 65279, and the line
      terminators excluded by [.] are 10, 13, 8232 and 8233.
    - An object used as a dictionary ([data.notes], [props]) is a finite map
      of its own properties, [gmap], and every stored note is a record
      [{content, updated}].  Reading a key that is no own property finds the
      member of [Object.prototype] of that name when there is one
      ([inherited]); the members are functions, or the prototype itself for
      [__proto__], so the value read is truthy and has no [content].
      Assigning a string to the key [__proto__] runs the inherited setter,
      which ignores it.
    - [Object.keys] and [Object.entries] enumerate the own keys in an order
      that depends on the history of the object; the enumeration is a
      parameter [ownKeys] of the operations that use it.
    - [Date.now()], the answers of [confirm] and [prompt] are arguments of the
      handlers; [alert] is visible in the handler's outcome.
    - React state: a handler reads the rendered state ([data], [current]) and
      its [setData] updater receives that same state. *)

From Stdlib Require Import Ascii String NArith ZArith Lia Sorted.
From stdpp Require Import gmap strings list fin_maps.

Abbreviation jsstring := (list N).

(** ** Strings *)

(** The code unit of a character of this text, and the string of a text. *)
Definition ch (a : Ascii.ascii) : N := N_of_ascii a.

Definition lit (s : string) : jsstring := ch <$> list_ascii_of_string s.

Definition NL : N := 10.
Definition CR : N := 13.
Definition DQ : N := 34.

(** The line separator and the paragraph separator. *)
Definition LS : N := 8232.
Definition PS : N := 8233.

(** [\s], and the characters [trim] removes: the white space and the line
    terminators of the language. *)
Definition isSpace (c : N) : bool :=
  (((9 <=? c) && (c <=? 13)) || (c =? 32) || (c =? 160) || (c =? 5760)
   || ((8192 <=? c) && (c <=? 8202)) || (c =? 8232) || (c =? 8233)
   || (c =? 8239) || (c =? 8287) || (c =? 12288) || (c =? 65279))%N.

(** The characters the regular expression [.] does not match. *)
Definition isLineTerminator (c : N) : bool :=
  N.eqb c NL || N.eqb c CR || N.eqb c LS || N.eqb c PS.

Fixpoint dropWhile (p : N -> bool) (s : jsstring) : jsstring :=
  match s with
  | [] => []
  | c :: s' => if p c then dropWhile p s' else s
  end.

Fixpoint takeWhile (p : N -> bool) (s : jsstring) : jsstring :=
  match s with
  | [] => []
  | c :: s' => if p c then c :: takeWhile p s' else []
  end.

(** [s.trim()] *)
Definition trim (s : jsstring) : jsstring :=
  rev (dropWhile isSpace (rev (dropWhile isSpace s))).

(** [s.startsWith(p)] *)
Fixpoint startsWith (p s : jsstring) : bool :=
  match p, s with
  | [], _ => true
  | _ :: _, [] => false
  | a :: p', b :: s' => N.eqb a b && startsWith p' s'
  end.

(** The least offset at which [p] occurs in [s]. *)
Fixpoint search (p s : jsstring) : option nat :=
  if startsWith p s then Some 0
  else match s with
       | [] => None
       | _ :: s' => S <$> search p s'
       end.

(** [s.indexOf(p, from)]; [None] stands for [-1]. *)
Definition indexOf (p : jsstring) (from : nat) (s : jsstring) : option nat :=
  let from' := from `min` length s in
  (fun i => from' + i) <$> search p (drop from' s).

(** [s.slice(a, b)] for offsets [0 <= a], [0 <= b]. *)
Definition slice (a b : nat) (s : jsstring) : jsstring :=
  take (b - a) (drop a s).

(** [s.replace(/^\n/, empty)]: one leading newline is removed. *)
Definition stripLeadingNL (s : jsstring) : jsstring :=
  match s with
  | c :: s' => if N.eqb c NL then s' else s
  | [] => []
  end.

(** [s.split(/\n+/)]: the pieces between the maximal runs of newlines.  The
    head of the result is the piece being read; a newline that is followed
    by another newline belongs to the same separator. *)
Fixpoint splitNL (s : jsstring) : list jsstring :=
  match s with
  | [] => [[]]
  | c :: s' =>
    if N.eqb c NL then
      if startsWith [NL] s' then splitNL s' else [] :: splitNL s'
    else
      match splitNL s' with
      | piece :: pieces => (c :: piece) :: pieces
      | [] => [[c]]
      end
  end.

(** [line.match(re)] for the pattern [^ ( [^:]+ ) : \s* ( .* ) $], giving
    the two groups.  The first group is the text before the first colon and
    has to be non-empty; the greedy [\s*] takes the white space after the
    colon; the second group is what is left and has to reach the end of the
    line without a line terminator (giving white space back to the second
    group cannot help, a white space character that [.] refuses stays in
    the way). *)
Definition matchProp (line : jsstring) : option (jsstring * jsstring) :=
  let key := takeWhile (fun c => negb (N.eqb c (ch ":"))) line in
  match key, drop (length key) line with
  | _ :: _, _colon :: rest =>
    let value := dropWhile isSpace rest in
    if forallb (fun c => negb (isLineTerminator c)) value
    then Some (key, value) else None
  | _, _ => None
  end.

(** ** Objects used as dictionaries *)

(** The names of the members of [Object.prototype]. *)
Definition inheritedNames : list jsstring :=
  [ lit "constructor"; lit "hasOwnProperty"; lit "isPrototypeOf";
    lit "propertyIsEnumerable"; lit "toLocaleString"; lit "toString";
    lit "valueOf"; lit "__proto__"; lit "__defineGetter__";
    lit "__defineSetter__"; lit "__lookupGetter__"; lit "__lookupSetter__" ].

Definition inherited (k : jsstring) : bool :=
  bool_decide (k ∈ inheritedNames).

(** The truth value of [obj[k]] for an object whose own values are
    records. *)
Definition isSet {A} (obj : gmap jsstring A) (k : jsstring) : bool :=
  bool_decide (is_Some (obj !! k)) || inherited k.

(** [obj[k] = v] for a string [v] on an object literal. *)
Definition assign (k v : jsstring) (obj : gmap jsstring jsstring)
  : gmap jsstring jsstring :=
  if bool_decide (k = lit "__proto__") then obj else <[k := v]> obj.

(** ** Front matter ([parseFrontMatter], the same text in both
    applications) *)

(** The opening line, and what the closing line is looked for by. *)
Definition opening : jsstring := lit "---" ++ [NL].
Definition closing : jsstring := NL :: lit "---".

Record ParsedNote := mkParsed {
  props : gmap jsstring jsstring;
  body : jsstring
}.

(** [props[m[1].trim()] = m[2].trim()] for a matching line. *)
Definition addProp (acc : gmap jsstring jsstring) (line : jsstring)
  : gmap jsstring jsstring :=
  match matchProp line with
  | Some (k, v) => assign (trim k) (trim v) acc
  | None => acc
  end.

Definition headerProps (header : jsstring) : gmap jsstring jsstring :=
  foldl addProp ∅ (splitNL header).

Definition parseFrontMatter (text : jsstring) : ParsedNote :=
  let fm := mkParsed ∅ text in
  if startsWith opening text then
    match indexOf closing 4 text with
    | Some e =>
      let header := trim (slice 4 e text) in
      let body := stripLeadingNL (drop (e + 4) text) in
      mkParsed (headerProps header) body
    | None => fm
    end
  else fm.

(** ** Regular expressions of the shape [open([^x]+)close]

    [matchSpan] tells whether a match starts at the head of [s] and gives the
    group.  The group is the maximal run of characters other than [x]; a
    shorter run would be followed by a character other than [x], where
    [close], which starts with [x], cannot match. *)
Definition matchSpan (opening : jsstring) (x : N) (closing : jsstring)
    (s : jsstring) : option jsstring :=
  if startsWith opening s then
    let inner := drop (length opening) s in
    let group := takeWhile (fun c => negb (N.eqb c x)) inner in
    match group with
    | [] => None
    | _ :: _ =>
      if startsWith closing (drop (length group) inner)
      then Some group else None
    end
  else None.

(** [s.replace(/open([^x]+)close/g, mk)]: matches are taken from left to
    right and do not overlap; [skip] counts the characters of the current
    match that are still to be passed over. *)
Fixpoint replaceSpan (opening : jsstring) (x : N) (closing : jsstring)
    (mk : jsstring -> jsstring) (skip : nat) (s : jsstring) : jsstring :=
  match s with
  | [] => []
  | c :: s' =>
    match skip with
    | S k => replaceSpan opening x closing mk k s'
    | O =>
      match matchSpan opening x closing s with
      | Some group =>
        mk group ++
        replaceSpan opening x closing mk
          (length opening + length group + length closing - 1) s'
      | None => c :: replaceSpan opening x closing mk 0 s'
      end
    end
  end.

(** [/open[^x]+close/.test(s)] *)
Fixpoint testSpan (opening : jsstring) (x : N) (closing : jsstring)
    (s : jsstring) : bool :=
  match matchSpan opening x closing s with
  | Some _ => true
  | None =>
    match s with
    | [] => false
    | _ :: s' => testSpan opening x closing s'
    end
  end.

(** [new RegExp(escaped p).test(s)], every special character of [p] being
    escaped: [p] occurs in [s]. *)
Definition includes (p s : jsstring) : bool :=
  match search p s with Some _ => true | None => false end.

(** ** The inline markup renderer ([renderMarkdown]) *)

(** [src.split(/\r?\n/)]: a separator is a newline, with the carriage return
    before it when there is one. *)
Fixpoint splitLines (s : jsstring) : list jsstring :=
  match s with
  | [] => [[]]
  | c :: s' =>
    if N.eqb c NL then [] :: splitLines s'
    else if N.eqb c CR && startsWith [NL] s' then splitLines s'
    else
      match splitLines s' with
      | piece :: pieces => (c :: piece) :: pieces
      | [] => [[c]]
      end
  end.

(** [lines.join(sep)] *)
Fixpoint join (sep : jsstring) (lines : list jsstring) : jsstring :=
  match lines with
  | [] => []
  | [l] => l
  | l :: ls => l ++ sep ++ join sep ls
  end.

(** [esc]: the replacement of each of [&], [<], [>] by its entity. *)
Definition escChar (c : N) : jsstring :=
  if N.eqb c (ch "&") then lit "&amp;"
  else if N.eqb c (ch "<") then lit "&lt;"
  else if N.eqb c (ch ">") then lit "&gt;"
  else [c].

Definition esc (s : jsstring) : jsstring := flat_map escChar s.

(** A line for which [/^marker\s+/] matches, with the marker and the white
    space after it removed. *)
Definition heading (marker : jsstring) (line : jsstring) : option jsstring :=
  if startsWith marker line then
    match drop (length marker) line with
    | c :: rest => if isSpace c then Some (dropWhile isSpace rest) else None
    | [] => None
    end
  else None.

Definition tag (name : string) (inner : jsstring) : jsstring :=
  lit "<" ++ lit name ++ lit ">" ++ inner ++ lit "</" ++ lit name ++ lit ">".

Definition bold (t : jsstring) : jsstring :=
  replaceSpan (lit "**") (ch "*") (lit "**") (tag "strong") 0 t.

Definition italic (t : jsstring) : jsstring :=
  replaceSpan (lit "*") (ch "*") (lit "*") (tag "em") 0 t.

Definition underline (t : jsstring) : jsstring :=
  replaceSpan (lit "__") (ch "_") (lit "__") (tag "u") 0 t.

(** The anchor written for a wiki-link whose group is [p1]. *)
Definition anchor (p1 : jsstring) : jsstring :=
  lit "<a href=" ++ [DQ] ++ lit "#" ++ [DQ] ++
  lit " class=" ++ [DQ] ++ lit "wikilink" ++ [DQ] ++
  lit " data-title=" ++ [DQ] ++ p1 ++ [DQ] ++
  lit ">[[" ++ p1 ++ lit "]]</a>".

Definition wikilinks (t : jsstring) : jsstring :=
  replaceSpan (lit "[[") (ch "]") (lit "]]") anchor 0 t.

Definition renderLine (line : jsstring) : jsstring :=
  match heading (lit "###") line with
  | Some h => tag "h3" (esc h)
  | None =>
  match heading (lit "##") line with
  | Some h => tag "h2" (esc h)
  | None =>
  match heading (lit "#") line with
  | Some h => tag "h1" (esc h)
  | None =>
    let t := esc line in
    let t := bold t in
    let t := italic t in
    let t := underline t in
    let t := wikilinks t in
    tag "p" (match t with [] => lit "&nbsp;" | _ :: _ => t end)
  end end end.

Definition renderMarkdown (src : jsstring) : jsstring :=
  join [NL] (renderLine <$> splitLines src).

(** The groups of the wiki-link matches in [t], from left to right: the
    texts that [wikilinks] writes into the [data-title] attributes. *)
Fixpoint spanGroups (opening : jsstring) (x : N) (closing : jsstring)
    (skip : nat) (s : jsstring) : list jsstring :=
  match s with
  | [] => []
  | _ :: s' =>
    match skip with
    | S k => spanGroups opening x closing k s'
    | O =>
      match matchSpan opening x closing s with
      | Some group =>
        group :: spanGroups opening x closing
                   (length opening + length group + length closing - 1) s'
      | None => spanGroups opening x closing 0 s'
      end
    end
  end.

Definition dataTitles (line : jsstring) : list jsstring :=
  spanGroups (lit "[[") (ch "]") (lit "]]") 0
    (underline (italic (bold (esc line)))).

(** ** The note store *)

Record Note := mkNote {
  content : jsstring;
  updated : Z
}.

(** A trash entry [{title, content, deletedAt}]. *)
Record TrashEntry := mkTrash {
  title : jsstring;
  t_content : jsstring;
  deletedAt : Z
}.

(** What a handler leaves behind.  [StoresUndefined]: the handler has put
    [undefined], a record without [content] or an inherited member under a
    key of the notes object (the old title of a rename was no note), which
    the record type of the model does not hold. *)
Inductive Outcome (S : Type) : Type :=
| Ret (st : S)
| Alerted (msg : jsstring) (st : S)
| StoresUndefined.
Arguments Ret {S} st.
Arguments Alerted {S} msg st.
Arguments StoresUndefined {S}.

(** The array without the element at [idx]:
    [arr.filter((_, i) => i !== idx)]. *)
Fixpoint filterIndex {A} (keep : nat -> bool) (i : nat) (arr : list A)
  : list A :=
  match arr with
  | [] => []
  | a :: arr' =>
    if keep i then a :: filterIndex keep (S i) arr'
    else filterIndex keep (S i) arr'
  end.

Definition without {A} (idx : nat) (arr : list A) : list A :=
  filterIndex (fun i => negb (i =? idx)) 0 arr.

(** *** The first application ([NotesView]): notes only *)

Module NotesView.

Record View := mkView {
  notes : gmap jsstring Note;
  current : jsstring
}.

(** [renameNote(oldTitle, newTitle)] *)
Definition renameNote (now : Z) (oldTitle newTitle : jsstring) (v : View)
  : Outcome View :=
  if bool_decide (newTitle = []) || bool_decide (oldTitle = newTitle)
  then Ret v
  else
    if isSet (notes v) newTitle
    then Alerted (lit "A note with this title already exists.") v
    else
      match notes v !! oldTitle with
      | Some old =>
        Ret (mkView
               (delete oldTitle
                  (<[newTitle := mkNote (content old) now]> (notes v)))
               newTitle)
      | None => StoresUndefined
      end.

(** The parts [renderWikiLinks] pushes: the text between the links, and for
    each link the title its button opens, [m[1].trim()]. *)
Inductive Part :=
| Text (s : jsstring)
| LinkTo (title : jsstring).

Definition flush (pending : jsstring) : list Part :=
  match pending with
  | [] => []
  | _ :: _ => [Text (rev pending)]
  end.

Fixpoint wikiParts (skip : nat) (pending : jsstring) (s : jsstring)
  : list Part :=
  match s with
  | [] => flush pending
  | c :: s' =>
    match skip with
    | S k => wikiParts k pending s'
    | O =>
      match matchSpan (lit "[[") (ch "]") (lit "]]") s with
      | Some group =>
        flush pending ++
        LinkTo (trim group) :: wikiParts (length group + 3) [] s'
      | None => wikiParts 0 (c :: pending) s'
      end
    end
  end.

Definition renderWikiLinks (text : jsstring) : list Part :=
  wikiParts 0 [] text.

(** The titles of the links of a text, as [renderWikiLinks] opens them. *)
Definition linkTitles (text : jsstring) : list jsstring :=
  omap (fun p => match p with LinkTo t => Some t | Text _ => None end)
       (renderWikiLinks text).

(** [createNote(title)]: the value written under [title] is [prev[title]]
    when that is set, and a new empty record otherwise.  For a title that
    is no note and names a member of [Object.prototype] the member is
    written. *)
Definition createNote (now : Z) (title : jsstring) (v : View)
  : Outcome View :=
  match notes v !! title with
  | Some r => Ret (mkView (<[title := r]> (notes v)) (current v))
  | None =>
    if inherited title then StoresUndefined
    else Ret (mkView (<[title := mkNote [] now]> (notes v)) (current v))
  end.

(** What is left to do after a call of [createNote]: [setCurrent(title)]. *)
Definition thenSelect (title : jsstring) (o : Outcome View) : Outcome View :=
  match o with
  | Ret v => Ret (mkView (notes v) title)
  | Alerted msg v => Alerted msg (mkView (notes v) title)
  | StoresUndefined => StoresUndefined
  end.

(** [openNote(title)] *)
Definition openNote (now : Z) (title : jsstring) (v : View) : Outcome View :=
  thenSelect title
    (if isSet (notes v) title then Ret v else createNote now title v).

(** The button New Note, [prompted] being the answer of the prompt. *)
Definition newNote (prompted : option jsstring) (now : Z) (v : View)
  : Outcome View :=
  match prompted with
  | None | Some [] => Ret v
  | Some title => thenSelect title (createNote now title v)
  end.

(** [deleteNote(title)], [confirmed] being the answer of [confirm] and
    [ownKeys] the enumeration of [Object.keys]. *)
Definition deleteNote (ownKeys : gmap jsstring Note -> list jsstring)
    (confirmed : bool) (title : jsstring) (v : View) : View :=
  if negb confirmed then v
  else
    mkView (delete title (notes v))
           (match filter (fun t => t ≠ title) (ownKeys (notes v)) with
            | [] => lit "Home"
            | [] :: _ => lit "Home"
            | t :: _ => t
            end).

End NotesView.

(** *** The second application ([App]): notes and trash *)

Record Data := mkData {
  notes : gmap jsstring Note;
  trash : list TrashEntry
}.

Record App := mkApp {
  data : Data;
  current : jsstring
}.

Definition setData (f : Data -> Data) (st : App) : App :=
  mkApp (f (data st)) (current st).

Definition setCurrent (t : jsstring) (st : App) : App :=
  mkApp (data st) t.

(** [createNote()], [prompted] being the answer of the prompt. *)
Definition createNote (prompted : option jsstring) (now : Z) (st : App)
  : Outcome App :=
  match prompted with
  | None | Some [] => Ret st
  | Some t =>
    if isSet (notes (data st)) t
    then Alerted (lit "A note with that title exists.") st
    else
      Ret (setCurrent t
             (setData (fun d => mkData (<[t := mkNote [] now]> (notes d))
                                       (trash d)) st))
  end.

(** [renameNote()]: the old title is [current], the new one the answer of
    the prompt. *)
Definition renameNote (prompted : option jsstring) (st : App)
  : Outcome App :=
  match prompted with
  | None | Some [] => Ret st
  | Some nt =>
    if bool_decide (nt = current st) then Ret st
    else
      if isSet (notes (data st)) nt
      then Alerted (lit "Title exists.") st
      else
        match notes (data st) !! current st with
        | Some moved =>
          Ret (setCurrent nt
                 (setData (fun d =>
                    mkData (delete (current st) (<[nt := moved]> (notes d)))
                           (trash d)) st))
        | None => StoresUndefined
        end
  end.

(** [copy[title]?.content || empty]: the content, when there is a note (an
    inherited member has no [content]). *)
Definition contentOrEmpty (n : option Note) : jsstring :=
  match n with
  | Some r => content r
  | None => []
  end.

(** [keys.filter(t => t !== title)[0] || "Home"]: the first other key,
    unless there is none or it is the empty string. *)
Definition nextTitle (title : jsstring) (keys : list jsstring) : jsstring :=
  match filter (fun t => t ≠ title) keys with
  | [] => lit "Home"
  | [] :: _ => lit "Home"
  | t :: _ => t
  end.

Section Enumeration.

Variable ownKeys : gmap jsstring Note -> list jsstring.

(** [Object.entries(obj)] *)
Definition entries (obj : gmap jsstring Note) : list (jsstring * Note) :=
  omap (fun k => (fun n => (k, n)) <$> obj !! k) (ownKeys obj).

(** [softDeleteNote(title)], [confirmed] being the answer of [confirm]. *)
Definition softDeleteNote (confirmed : bool) (now : Z) (title : jsstring)
    (st : App) : App :=
  if negb confirmed then st
  else
    let st' :=
      setData (fun d =>
        let entry := mkTrash title (contentOrEmpty (notes d !! title)) now in
        mkData (delete title (notes d)) (entry :: trash d)) st in
    if bool_decide (title = current st)
    then setCurrent (nextTitle title (ownKeys (notes (data st)))) st'
    else st'.

(** The backlinks of [cur]: the three filters over the entries. *)
Definition backlinks (cur : jsstring) (obj : gmap jsstring Note)
  : list (jsstring * Note) :=
  filter (fun e => includes (lit "[[" ++ cur ++ lit "]]") (content e.2) = true)
    (filter (fun e => testSpan (lit "[[") (ch "]") (lit "]]") (content e.2) = true)
       (filter (fun e => e.1 ≠ cur) (entries obj))).

End Enumeration.

(** [restoreTrash(idx)]; [None]: [data.trash[idx]] is [undefined] and reading
    its title throws, the state staying as it is. *)
Definition restoreTrash (now : Z) (idx : nat) (st : App) : option App :=
  match trash (data st) !! idx with
  | None => None
  | Some item =>
    let t :=
      if isSet (notes (data st)) (title item)
      then title item ++ lit " (restored)"
      else title item in
    Some (setCurrent t
            (setData (fun d =>
               mkData (<[t := mkNote (t_content item) now]> (notes d))
                      (without idx (trash d))) st))
  end.

(** [deleteForever(idx)] *)
Definition deleteForever (confirmed : bool) (idx : nat) (st : App) : App :=
  if negb confirmed then st
  else setData (fun d => mkData (notes d) (without idx (trash d))) st.

(** [emptyTrash()] *)
Definition emptyTrash (confirmed : bool) (st : App) : App :=
  if negb confirmed then st
  else setData (fun d => mkData (notes d) []) st.

(** [setContent(v)] *)
Definition setContent (v : jsstring) (now : Z) (st : App) : App :=
  setData (fun d => mkData (<[current st := mkNote v now]> (notes d))
                           (trash d)) st.

(** The click handler of the preview, [title] being [a.dataset.title]. *)
Definition handler (title : jsstring) (now : Z) (st : App) : App :=
  let st' :=
    if isSet (notes (data st)) title then st
    else
      setData (fun d => mkData (<[title := mkNote [] now]> (notes d))
                               (trash d)) st in
  setCurrent title st'.

(** *** The toolbar of the editor *)

(** The greatest offset [k <= i] at which [p] occurs in [s]. *)
Fixpoint lastIndexFrom (p s : jsstring) (i : nat) : option nat :=
  if startsWith p (drop i s) then Some i
  else match i with
       | O => None
       | S j => lastIndexFrom p s j
       end.

(** [s.lastIndexOf(p, position)]: the search starts at [position] clamped
    to the offsets of [s]; the result is [-1] when [p] does not occur at or
    before it. *)
Definition lastIndexOf (p : jsstring) (position : Z) (s : jsstring) : Z :=
  let start := Z.to_nat (Z.max 0 (Z.min position (Z.of_nat (length s)))) in
  match lastIndexFrom p s start with
  | Some k => Z.of_nat k
  | None => (-1)%Z
  end.

(** [currentNote.content], [currentNote] being [data.notes[current]] or the
    empty record; [None] stands for [undefined], the content of an inherited
    member. *)
Definition currentContent (st : App) : option jsstring :=
  match notes (data st) !! current st with
  | Some r => Some (content r)
  | None => if inherited (current st) then None else Some []
  end.

Module Toolbar.

(** The text and the selection range that [wrapSelection(before, after)]
    sets for the text [val] with the selection from [start] to [end_]. *)
Definition wrapText (before after : jsstring) (start end_ : nat)
    (val : jsstring) : jsstring * (nat * nat) :=
  let selected :=
    match slice start end_ val with
    | [] => lit "text"
    | c :: sel => c :: sel
    end in
  let next := take start val ++ before ++ selected ++ after ++ drop end_ val in
  (next, (start + length before, start + length before + length selected)).

(** [wrapSelection(before, after)] with the textarea mounted; [None]: the
    content is [undefined] and slicing it throws. *)
Definition wrapSelection (before after : jsstring) (start end_ : nat)
    (now : Z) (st : App) : option (App * (nat * nat)) :=
  match currentContent st with
  | None => None
  | Some val =>
    let r := wrapText before after start end_ val in
    Some (setContent r.1 now st, r.2)
  end.

(** The prefix of [heading(level)]: [level] hashes and a blank. *)
Definition prefix (level : nat) : jsstring :=
  replicate level (ch "#") ++ lit " ".

(** The text and the caret that [heading(level)] sets for the text [val]
    with the caret at [start]. *)
Definition headingText (level start : nat) (val : jsstring)
  : jsstring * nat :=
  let lineStart :=
    Z.to_nat (lastIndexOf [NL] (Z.of_nat start - 1) val + 1) in
  let next := take lineStart val ++ prefix level ++ drop lineStart val in
  (next, start + length (prefix level)).

(** [heading(level)] with the textarea mounted. *)
Definition heading (level start : nat) (now : Z) (st : App)
  : option (App * nat) :=
  match currentContent st with
  | None => None
  | Some val =>
    let r := headingText level start val in
    Some (setContent r.1 now st, r.2)
  end.

End Toolbar.

(** *** The size of the editor font

    [edFont] is the state of the component and [cssFont] the number of
    pixels last written to the style property, if any.  The sizes are small
    integers, on which the arithmetic of JavaScript numbers is exact. *)
Record Font := mkFont {
  edFont : Z;
  cssFont : option Z
}.

Definition initialFont : Font := mkFont 16 None.

(** The buttons [-] and [+]. *)
Definition fontMinus (f : Font) : Font :=
  mkFont (Z.max 12 (edFont f - 2)) (Some (edFont f - 2)%Z).

Definition fontPlus (f : Font) : Font :=
  mkFont (Z.min 28 (edFont f + 2)) (Some (edFont f + 2)%Z).

(** A click on [+] ([true]) or on [-] ([false]). *)
Definition click (f : Font) (plus : bool) : Font :=
  if plus then fontPlus f else fontMinus f.

(** *** The list of titles and the search box (both applications) *)

(** [notes[k]?.updated || 0] *)
Definition updatedOf (obj : gmap jsstring Note) (k : jsstring) : Z :=
  match obj !! k with
  | Some r => updated r
  | None => 0
  end.

(** [arr.sort(cmp)] for a comparison that orders by a number attached to
    each element: the sort is stable, so the result is the list of the
    elements in the order of [cmp], elements that compare equal staying in
    the order they had.  An element goes in front of the first element it
    is not behind. *)
Fixpoint insertBy (cmp : jsstring -> jsstring -> Z) (x : jsstring)
    (sorted : list jsstring) : list jsstring :=
  match sorted with
  | [] => [x]
  | y :: ys =>
    if (cmp x y <=? 0)%Z then x :: y :: ys else y :: insertBy cmp x ys
  end.

Definition sortBy (cmp : jsstring -> jsstring -> Z) (arr : list jsstring)
  : list jsstring :=
  foldr (insertBy cmp) [] arr.

(** [titles]: the keys, the note updated last first. *)
Definition titles (ownKeys : gmap jsstring Note -> list jsstring)
    (obj : gmap jsstring Note) : list jsstring :=
  sortBy (fun a b => (updatedOf obj b - updatedOf obj a)%Z) (ownKeys obj).


(** *** The pattern of the backlink search *)

Definition BS : N := 92.

(** The characters of the class in [escapeRegExp]: the syntax characters of
    a pattern. *)
Definition isSyntaxChar (c : N) : bool :=
  bool_decide (c ∈ lit ".*+?^${}()|[]" ++ [BS]).

(** [escapeRegExp(str)]: a backslash in front of every syntax character. *)
Definition escapeRegExp (str : jsstring) : jsstring :=
  flat_map (fun c => if isSyntaxChar c then [BS; c] else [c]) str.

(** The source of the pattern built for the title [cur]: two escaped opening
    brackets, the escaped title, two escaped closing brackets. *)
Definition linkPattern (cur : jsstring) : jsstring :=
  [BS; (ch "["); BS; (ch "[")] ++ escapeRegExp cur
  ++ [BS; (ch "]"); BS; (ch "]")].

(** *** The third application ([App] with strings as notes) *)

Module Simple.

Record App := mkApp {
  notes : gmap jsstring jsstring;
  current : jsstring
}.

Definition initial : App :=
  mkApp {[ lit "Home" := lit "Welcome to LiteNotes!" ]} (lit "Home").

(** [addNote()], [prompted] being the answer of the prompt. *)
Definition addNote (prompted : option jsstring) (st : App) : App :=
  match prompted with
  | None | Some [] => st
  | Some title => mkApp (<[title := []]> (notes st)) (current st)
  end.

(** The click on the item of the title [t]. *)
Definition select (t : jsstring) (st : App) : App :=
  mkApp (notes st) t.

(** The change handler of the textarea. *)
Definition edit (value : jsstring) (st : App) : App :=
  mkApp (<[current st := value]> (notes st)) (current st).

(** What the user can do; there is one item to click for each key of the
    notes. *)
Inductive Event :=
| AddNote (prompted : option jsstring)
| Select (t : jsstring)
| Edit (value : jsstring).

Definition step (st : App) (ev : Event) : option App :=
  match ev with
  | AddNote prompted => Some (addNote prompted st)
  | Select t =>
    if bool_decide (is_Some (notes st !! t)) then Some (select t st)
    else None
  | Edit value => Some (edit value st)
  end.

Fixpoint run (st : App) (evs : list Event) : option App :=
  match evs with
  | [] => Some st
  | ev :: evs' =>
    match step st ev with
    | Some st' => run st' evs'
    | None => None
    end
  end.

End Simple.

(** *** The database ([DatabaseView], [ColumnsEditor], [RowsTable]) *)

Module Database.

Record Column := mkColumn {
  key : jsstring;
  type : jsstring
}.

(** [addColumn()], giving the columns of the collection afterwards. *)
Definition addColumn (prompted : option jsstring) (columns : list Column)
  : Outcome (list Column) :=
  match prompted with
  | None | Some [] => Ret columns
  | Some k =>
    if existsb (fun c => bool_decide (key c = k)) columns
    then Alerted (lit "Key exists.") columns
    else Ret (columns ++ [mkColumn k (lit "text")])
  end.

(** The change handlers of the column at [idx], an index of [columns], and
    its button [x]. *)
Definition setKey (idx : nat) (v : jsstring) (columns : list Column)
  : list Column :=
  alter (fun c => mkColumn v (type c)) idx columns.

Definition setType (idx : nat) (v : jsstring) (columns : list Column)
  : list Column :=
  alter (fun c => mkColumn (key c) v) idx columns.

Definition removeColumn (idx : nat) (columns : list Column) : list Column :=
  without idx columns.

(** The white space of HTML: tab, newline, form feed, carriage return and
    blank. *)
Definition isAsciiSpace (c : N) : bool :=
  ((c =? 9) || (c =? 10) || (c =? 12) || (c =? 13) || (c =? 32))%N.

(** Every run of white space replaced by one blank; [inRun]: the character
    before was white space. *)
Fixpoint collapse (inRun : bool) (s : jsstring) : jsstring :=
  match s with
  | [] => []
  | c :: s' =>
    if isAsciiSpace c
    then (if inRun then collapse true s' else 32%N :: collapse true s')
    else c :: collapse false s'
  end.

(** [e.target.value] for an [option] that has no [value] attribute, as those
    of the select of the collections: the text of the option with its white
    space collapsed and stripped at both ends. *)
Definition optionValue (text : jsstring) : jsstring :=
  rev (dropWhile isAsciiSpace
         (rev (dropWhile isAsciiSpace (collapse false text)))).

Section Cells.

(** What a cell holds: a string, a number or a boolean. *)
Variable Value : Type.

Record Row := mkRow {
  id : jsstring;
  data : gmap jsstring Value
}.

Record Collection := mkCollection {
  columns : list Column;
  rows : list Row
}.

Record View := mkView {
  collections : gmap jsstring Collection;
  selected : jsstring
}.

(** [addRow()], [newId] being the random identifier. *)
Definition addRow (newId : jsstring) (rs : list Row) : list Row :=
  rs ++ [mkRow newId ∅].

(** [updateCell(ridx, key, value)]; [None]: there is no row at [ridx] and
    reading its data throws. *)
Definition updateCell (ridx : nat) (k : jsstring) (value : Value)
    (rs : list Row) : option (list Row) :=
  match rs !! ridx with
  | Some r => Some (<[ridx := mkRow (id r) (<[k := value]> (data r))]> rs)
  | None => None
  end.

(** [deleteRow(ridx)] *)
Definition deleteRow (ridx : nat) (rs : list Row) : list Row :=
  without ridx rs.

(** [Object.keys(obj)[0] || empty] *)
Definition firstKey (keys : list jsstring) : jsstring :=
  match keys with
  | [] => []
  | k :: _ => k
  end.

Variable ownKeys : gmap jsstring Collection -> list jsstring.

(** The state after mounting, for the collections read from the storage. *)
Definition mounted (stored : gmap jsstring Collection) : View :=
  mkView stored (firstKey (ownKeys stored)).

(** [addCollection()] *)
Definition addCollection (prompted : option jsstring) (v : View)
  : Outcome View :=
  match prompted with
  | None | Some [] => Ret v
  | Some name =>
    if isSet (collections v) name
    then Alerted (lit "Collection already exists.") v
    else
      Ret (mkView
             (<[name := mkCollection [mkColumn (lit "name") (lit "text")] []]>
                (collections v))
             name)
  end.

(** [deleteCollection(name)] *)
Definition deleteCollection (confirmed : bool) (name : jsstring) (v : View)
  : View :=
  if negb confirmed then v
  else
    let copy := delete name (collections v) in
    mkView copy (firstKey (ownKeys copy)).

(** The button Rename. *)
Definition renameCollection (prompted : option jsstring) (v : View)
  : Outcome View :=
  match prompted with
  | None | Some [] => Ret v
  | Some nn =>
    if bool_decide (nn = selected v) then Ret v
    else
      if isSet (collections v) nn then Alerted (lit "Name exists.") v
      else
        match collections v !! selected v with
        | Some c =>
          Ret (mkView (delete (selected v) (<[nn := c]> (collections v))) nn)
        | None => StoresUndefined
        end
  end.

(** The [onChange] given to [ColumnsEditor] and to [RowsTable]. *)
Definition setColumns (cols : list Column) (col : Collection) (v : View)
  : View :=
  mkView (<[selected v := mkCollection cols (rows col)]> (collections v))
         (selected v).

Definition setRows (rs : list Row) (col : Collection) (v : View) : View :=
  mkView (<[selected v := mkCollection (columns col) rs]> (collections v))
         (selected v).

(** What the user can do on the page. *)
Inductive Event :=
| AddCollection (prompted : option jsstring)
| SelectCollection (name : jsstring)
| RenameCollection (prompted : option jsstring)
| DeleteCollection (confirmed : bool)
| AddColumn (prompted : option jsstring)
| SetKey (idx : nat) (v : jsstring)
| SetType (idx : nat) (v : jsstring)
| RemoveColumn (idx : nat)
| AddRow (newId : jsstring)
| UpdateCell (ridx : nat) (k : jsstring) (value : Value)
| DeleteRow (ridx : nat).

(** The state a handler leaves, when it runs to its end. *)
Definition stateOf {S} (o : Outcome S) : option S :=
  match o with
  | Ret s => Some s
  | Alerted _ s => Some s
  | StoresUndefined => None
  end.

(** The part of the page that is there when [selected] is not empty: the
    buttons Rename and Delete and the two editors. *)
Definition whenSelected (v : View) (k : option View) : option View :=
  match selected v with
  | [] => None
  | _ :: _ => k
  end.

(** The editors are given the columns and rows of [collections[selected]],
    which has to be there for the page to render. *)
Definition inEditor (v : View) (k : Collection -> option View)
  : option View :=
  whenSelected v (collections v !! selected v ≫= k).

(** The controls of the item at [idx] of a list. *)
Definition atIndex {A} (idx : nat) (l : list A) (k : option View)
  : option View :=
  if bool_decide (idx < length l) then k else None.

(** One event.  The select offers one option for each key of the
    collections, with the key as its text and no [value] attribute, and
    [SelectCollection name] is the choice of the option of the key [name]:
    the handler is given the value of that option.  [None]: the control is
    not on the page, or the handler throws. *)
Definition step (v : View) (ev : Event) : option View :=
  match ev with
  | AddCollection prompted => stateOf (addCollection prompted v)
  | SelectCollection name =>
    if bool_decide (is_Some (collections v !! name))
    then Some (mkView (collections v) (optionValue name)) else None
  | RenameCollection prompted =>
    whenSelected v (stateOf (renameCollection prompted v))
  | DeleteCollection confirmed =>
    whenSelected v (Some (deleteCollection confirmed (selected v) v))
  | AddColumn prompted =>
    inEditor v (fun col =>
      (fun cols => setColumns cols col v)
        <$> stateOf (addColumn prompted (columns col)))
  | SetKey idx k =>
    inEditor v (fun col =>
      atIndex idx (columns col)
        (Some (setColumns (setKey idx k (columns col)) col v)))
  | SetType idx t =>
    inEditor v (fun col =>
      atIndex idx (columns col)
        (Some (setColumns (setType idx t (columns col)) col v)))
  | RemoveColumn idx =>
    inEditor v (fun col =>
      atIndex idx (columns col)
        (Some (setColumns (removeColumn idx (columns col)) col v)))
  | AddRow newId =>
    inEditor v (fun col => Some (setRows (addRow newId (rows col)) col v))
  | UpdateCell ridx k value =>
    inEditor v (fun col =>
      (fun rs => setRows rs col v) <$> updateCell ridx k value (rows col))
  | DeleteRow ridx =>
    inEditor v (fun col =>
      atIndex ridx (rows col)
        (Some (setRows (deleteRow ridx (rows col)) col v)))
  end.

Fixpoint run (v : View) (evs : list Event) : option View :=
  match evs with
  | [] => Some v
  | ev :: evs' =>
    match step v ev with
    | Some v' => run v' evs'
    | None => None
    end
  end.

End Cells.

Arguments mkRow {Value}.
Arguments id {Value}.
Arguments data {Value}.
Arguments mkCollection {Value}.
Arguments columns {Value}.
Arguments rows {Value}.
Arguments mkView {Value}.
Arguments collections {Value}.
Arguments selected {Value}.
Arguments addRow {Value}.
Arguments updateCell {Value}.
Arguments deleteRow {Value}.
Arguments mounted {Value}.
Arguments addCollection {Value}.
Arguments deleteCollection {Value}.
Arguments renameCollection {Value}.
Arguments setColumns {Value}.
Arguments setRows {Value}.
Arguments AddCollection {Value}.
Arguments SelectCollection {Value}.
Arguments RenameCollection {Value}.
Arguments DeleteCollection {Value}.
Arguments AddColumn {Value}.
Arguments SetKey {Value}.
Arguments SetType {Value}.
Arguments RemoveColumn {Value}.
Arguments AddRow {Value}.
Arguments UpdateCell {Value}.
Arguments DeleteRow {Value}.
Arguments whenSelected {Value}.
Arguments inEditor {Value}.
Arguments atIndex {Value A}.
Arguments step {Value}.
Arguments run {Value}.

End Database.

(** ** Vocabulary of the statements *)

(** [p] occurs in [s]. *)
Definition occurs (p s : jsstring) : Prop :=
  exists a b, s = a ++ p ++ b.

(** [p] occurs in [s] at offset [i]. *)
Definition occursAt (p : jsstring) (i : nat) (s : jsstring) : Prop :=
  exists a b, s = a ++ p ++ b /\ length a = i.


(** A line of the header that gives a property: a non-empty key without a
    colon, the colon, white space, and a value that does not start with
    white space and holds no line terminator. *)
Definition propLine (line key value : jsstring) : Prop :=
  exists ws,
    line = key ++ (ch ":") :: ws ++ value
    /\ key <> [] /\ ((ch ":") ∉ key)
    /\ forallb isSpace ws = true
    /\ match value with [] => True | c :: _ => isSpace c = false end
    /\ forallb (fun c => negb (isLineTerminator c)) value = true.

(** The property a list of header lines gives to [k]: the value of the last
    line whose trimmed key is [k]. *)
Definition lastProp (lines : list jsstring) (k v : jsstring) : Prop :=
  exists before line after key value,
    lines = before ++ line :: after
    /\ propLine line key value /\ trim key = k /\ trim value = v
    /\ forall line' key' value',
         line' ∈ after -> propLine line' key' value' -> trim key' <> k.

(** Modelled from the spec: the serialization of a properties mapping that
    the round-trip property names; the sources hold no such function.  The
    block is a line of three dashes, the lines of the properties, each with
    key, colon, blank and value, joined by newlines, and a line of three
    dashes, as in the placeholder text of the editor.  For the mapping
    without properties there is one empty line between the two lines of
    dashes. *)
Definition serializeLine (kv : jsstring * jsstring) : jsstring :=
  kv.1 ++ lit ": " ++ kv.2.

Definition serialize (properties : gmap jsstring jsstring) : jsstring :=
  opening
  ++ join [NL] (serializeLine <$> map_to_list properties)
  ++ closing ++ [NL].

(** A string that does not start with white space. *)
Definition headOK (s : jsstring) : Prop :=
  match s with [] => True | c :: _ => isSpace c = false end.

(** Keys and values that the parser reads back as they were written. *)
Definition plainKey (k : jsstring) : Prop :=
  k <> [] /\ ((ch ":") ∉ k) /\ (NL ∉ k) /\ trim k = k
  /\ startsWith (lit "---") k = false /\ k <> lit "__proto__".

Definition plainValue (v : jsstring) : Prop :=
  forallb (fun c => negb (isLineTerminator c)) v = true /\ trim v = v.

Definition plainPair (kv : jsstring * jsstring) : Prop :=
  plainKey kv.1 /\ plainValue kv.2.

(** A text without the characters that the renderer reads as markup or
    escapes, and without newline. *)
Definition markupChars : jsstring := lit "&<>*_[" ++ [NL].

Definition plainText (s : jsstring) : Prop :=
  forallb (fun c => negb (bool_decide (c ∈ markupChars))) s = true.

(** What a handler of [NotesView] does to the state [v] when it opens
    [title]: it selects [title]; when [notes[title]] was set the notes are
    those of [v], and when it was not they are those of [v] and the empty
    note [title], stamped with the time of the call. *)
Definition opens (now : Z) (title : jsstring) (v v' : NotesView.View)
  : Prop :=
  NotesView.current v' = title
  /\ NotesView.notes v'
     = if isSet (NotesView.notes v) title then NotesView.notes v
       else <[title := mkNote [] now]> (NotesView.notes v).

(** The order of the list of titles: [a] may stand in front of [b]. *)
Definition newerFirst (obj : gmap jsstring Note) (a b : jsstring) : Prop :=
  (updatedOf obj b <= updatedOf obj a)%Z.

(** The one text that a pattern matches, for a pattern source that is a
    sequence of characters that are no syntax characters and of syntax
    characters behind a backslash; [None] for any other source. *)
Fixpoint literalOf (src : jsstring) : option jsstring :=
  match src with
  | [] => Some []
  | c :: rest =>
    if N.eqb c BS then
      match rest with
      | d :: rest' =>
        if isSyntaxChar d then cons d <$> literalOf rest' else None
      | [] => None
      end
    else if isSyntaxChar c then None else cons c <$> literalOf rest
  end.

(** [selected] is empty or names a collection: what the page needs to
    render. *)
Definition selectedOK {Value} (v : Database.View Value) : Prop :=
  Database.selected v = []
  \/ is_Some (Database.collections v !! Database.selected v).

(** An event that is no choice in the select, or the choice of a collection
    whose name is the value of its option: a name without white space at
    its ends, and with single blanks for white space inside. *)
Definition picksByName {Value} (ev : Database.Event Value) : Prop :=
  match ev with
  | Database.SelectCollection name => Database.optionValue name = name
  | _ => True
  end.

(** ** Stores and texts of the examples *)

(** An enumeration of the own keys of concrete stores, for examples. *)
Definition keysOf (obj : gmap jsstring Note) : list jsstring :=
  (map_to_list obj).*1.

Definition homeOnly : App :=
  mkApp (mkData {[ lit "Home" := mkNote (lit "Welcome") 1 ]} []) (lit "Home").

Definition twoNotes : App :=
  mkApp (mkData (<[ lit "Work" := mkNote (lit "todo") 2 ]>
                   {[ lit "Home" := mkNote (lit "Welcome") 1 ]}) [])
        (lit "Home").

(** The notes Home and Work, with an older Work in the trash. *)
Definition twoNotesOneTrashed : App :=
  mkApp (mkData (<[ lit "Work" := mkNote (lit "todo") 2 ]>
                   {[ lit "Home" := mkNote (lit "Welcome") 1 ]})
                [mkTrash (lit "Work") (lit "old todo") 3])
        (lit "Home").

Definition projectTwice : App :=
  mkApp (mkData
           (<[ lit "Project (restored)" := mkNote (lit "keep me") 6 ]>
              {[ lit "Project" := mkNote (lit "new text") 5 ]})
           [mkTrash (lit "Project") (lit "old text") 3])
        (lit "Project").

Definition bobLine : jsstring := lit "[[ Bob ]]".



(** A note that names B in its front matter only, and a note that links
    to the title a]b. *)
Definition linkInFrontMatter : gmap jsstring Note :=
  <[ lit "A" := mkNote (opening ++ lit "see: [[B]]" ++ closing
                        ++ NL :: lit "plain") 2 ]>
    {[ lit "B" := mkNote [] 1 ]}.

Definition bracketInTitle : gmap jsstring Note :=
  <[ lit "A" := mkNote (lit "[[a]b]]") 2 ]>
    {[ lit "a]b" := mkNote [] 1 ]}.

(** The text of scenario 3: one property and the body Hi [[Bob]]. *)
Definition scenario3 : jsstring :=
  opening ++ lit "priority: high" ++ closing ++ NL :: lit "Hi [[Bob]]".

(** A newline and three dashes with more text on the line. *)
Definition dashesAndMore : jsstring :=
  opening ++ lit "k: v" ++ closing ++ lit "x" ++ NL :: lit "body".

(** A block with nothing between its two lines of three dashes. *)
Definition emptyBlock : jsstring :=
  opening ++ lit "---" ++ NL :: lit "body".

Definition twoProps : gmap jsstring jsstring :=
  <[ lit "priority" := lit "high" ]> {[ lit "project" := [] ]}.

Definition blankBeforeValue : gmap jsstring jsstring :=
  {[ lit "k" := lit " v" ]}.

Definition dashesInSecondKey : gmap jsstring jsstring :=
  <[ lit "---b" := lit "2" ]> {[ lit "z" := lit "1" ]}.

(** The note Home with the lines ab and cd, with an empty first line, and
    with one line of three words. *)
Definition twoLines : App :=
  mkApp (mkData {[ lit "Home" := mkNote (lit "ab" ++ NL :: lit "cd") 1 ]} [])
        (lit "Home").

Definition emptyFirstLine : App :=
  mkApp (mkData {[ lit "Home" := mkNote (NL :: lit "cd") 1 ]} [])
        (lit "Home").

Definition sayHello : App :=
  mkApp (mkData {[ lit "Home" := mkNote (lit "say hello now") 1 ]} [])
        (lit "Home").

(** An enumeration of the keys of concrete collections, whose cells hold
    strings. *)
Definition collectionKeys (obj : gmap jsstring (Database.Collection jsstring))
  : list jsstring :=
  (map_to_list obj).*1.

Definition firstRow : Database.Row jsstring := Database.mkRow (lit "r1") ∅.

(** A session on the database page: two collections are added, the first
    is chosen in the select, given a column and a row, a cell is filled, and
    the collection is deleted. *)
Definition bookSession : list (Database.Event jsstring) :=
  [ Database.AddCollection (Some (lit "Books"));
    Database.AddCollection (Some (lit "Old Films"));
    Database.SelectCollection (lit "Books");
    Database.AddColumn (Some (lit "author"));
    Database.AddRow (lit "r1");
    Database.UpdateCell 0 (lit "author") (lit "Eco");
    Database.DeleteCollection true ].

(** A session with a collection whose name has blanks at its ends: it is
    added, another one is added, and the first is chosen in the select. *)
Definition spacedSession : list (Database.Event jsstring) :=
  [ Database.AddCollection (Some (lit " a b "));
    Database.AddCollection (Some (lit "x"));
    Database.SelectCollection (lit " a b ") ].



(** A session on the third application. *)
Definition simpleSession : list Simple.Event :=
  [ Simple.AddNote (Some (lit "A")); Simple.Select (lit "A");
    Simple.Edit (lit "x") ].

(** * Properties *)

(** ** Searching in strings *)

Lemma startsWith_app (p b : jsstring) : startsWith p (p ++ b) = true.
Proof.
  induction p as [|c p IH]; simpl; [done|].
  by rewrite N.eqb_refl, IH.
Qed.

Lemma startsWith_inv (p s : jsstring) :
  startsWith p s = true -> s = p ++ drop (length p) s.
Proof.
  revert s. induction p as [|c p IH]; intros [|d s] H; simpl in *;
    try done.
  apply andb_true_iff in H as [Hc Hp].
  apply N.eqb_eq in Hc as ->. f_equal. by apply IH.
Qed.

Lemma startsWith_occursAt (p s : jsstring) (i : nat) :
  i <= length s ->
  startsWith p (drop i s) = true <-> occursAt p i s.
Proof.
  intros Hi. split.
  - intros H. apply startsWith_inv in H.
    exists (take i s), (drop (length p) (drop i s)). split.
    + rewrite <- H. by rewrite take_drop.
    + rewrite length_take. lia.
  - intros (a & b & -> & <-).
    rewrite drop_app_length. apply startsWith_app.
Qed.

Lemma occursAt_le (p s : jsstring) (i : nat) :
  occursAt p i s -> i + length p <= length s.
Proof.
  intros (a & b & -> & <-). rewrite !length_app. lia.
Qed.

Lemma search_Some (p s : jsstring) (i : nat) :
  search p s = Some i ->
  occursAt p i s /\ forall j, j < i -> ~ occursAt p j s.
Proof.
  revert i. induction s as [|c s IH]; intros i.
  - simpl. destruct (startsWith p []) eqn:E; [|done].
    intros [= <-]. split; [|lia].
    apply (startsWith_occursAt p [] 0); simpl; [lia|done].
  - cbn [search]. destruct (startsWith p (c :: s)) eqn:E.
    + intros [= <-]. split; [|lia].
      apply (startsWith_occursAt p (c :: s) 0); simpl; [lia|done].
    + destruct (search p s) as [k|] eqn:Es; [|done].
      intros [= <-]. destruct (IH k eq_refl) as [Hocc Hmin]. split.
      * destruct Hocc as (a & b & -> & <-).
        exists (c :: a), b. done.
      * intros [|j] Hj (a & b & Hs & Ha).
        -- destruct a; [|done]. simpl in Hs.
           rewrite Hs, startsWith_app in E. done.
        -- destruct a as [|c' a]; [done|].
           simpl in Hs, Ha. injection Hs as -> ->.
           apply (Hmin j); [lia|]. exists a, b. split; [done|lia].
Qed.

Lemma search_None (p s : jsstring) :
  search p s = None -> ~ occurs p s.
Proof.
  induction s as [|c s IH].
  - simpl. destruct (startsWith p []) eqn:E; [done|].
    intros _ (a & b & Hs). destruct a; [|done]. destruct p; [done|done].
  - cbn [search]. destruct (startsWith p (c :: s)) eqn:E; [done|].
    destruct (search p s) as [k|] eqn:Es; [done|].
    intros _ (a & b & Hs). destruct a as [|c' a].
    + simpl in Hs. rewrite Hs, startsWith_app in E. done.
    + simpl in Hs. injection Hs as -> ->. apply IH; [done|].
      by exists a, b.
Qed.


Lemma takeWhile_stop (P : N -> bool) (g rest : jsstring) :
  forallb P g = true ->
  match rest with [] => True | c :: _ => P c = false end ->
  takeWhile P (g ++ rest) = g.
Proof.
  intros Hg Hrest. induction g as [|c g IH]; simpl in *.
  - destruct rest as [|c rest]; [done|]. simpl. by rewrite Hrest.
  - apply andb_true_iff in Hg as [Hc Hg]. rewrite Hc. f_equal. by apply IH.
Qed.

Lemma takeWhile_split (P : N -> bool) (s : jsstring) :
  s = takeWhile P s ++ drop (length (takeWhile P s)) s
  /\ forallb P (takeWhile P s) = true
  /\ match drop (length (takeWhile P s)) s with
     | [] => True
     | c :: _ => P c = false
     end.
Proof.
  induction s as [|c s (IH1 & IH2 & IH3)]; simpl; [done|].
  destruct (P c) eqn:E; simpl.
  - rewrite E. split; [by f_equal|done].
  - by rewrite E.
Qed.

Lemma forallb_neq (x : N) (g : jsstring) :
  forallb (fun c => negb (N.eqb c x)) g = true <-> x ∉ g.
Proof.
  induction g as [|c g IH]; simpl.
  - split; [intros _; apply not_elem_of_nil|done].
  - rewrite andb_true_iff, IH, not_elem_of_cons, negb_true_iff.
    rewrite N.eqb_neq. split; intros [? ?]; split; congruence.
Qed.

(** A match of [open([^x]+)close] at the head of [s], when [close] starts
    with [x]. *)
Lemma matchSpan_spec (o : jsstring) (x : N) (c' : jsstring)
    (s g : jsstring) :
  matchSpan o x (x :: c') s = Some g <->
  g <> [] /\ (x ∉ g) /\ exists rest, s = o ++ g ++ (x :: c') ++ rest.
Proof.
  unfold matchSpan. split.
  - destruct (startsWith o s) eqn:Eo; [|done].
    apply startsWith_inv in Eo.
    set (inner := drop (length o) s) in *.
    destruct (takeWhile_split (fun c => negb (N.eqb c x)) inner)
      as (Hsplit & Hall & _).
    destruct (takeWhile (fun c => negb (N.eqb c x)) inner)
      as [|a g'] eqn:Eg; [done|].
    destruct (startsWith (x :: c') (drop (length (a :: g')) inner)) eqn:Ec;
      [|done].
    intros [= <-]. split; [done|]. split; [by apply forallb_neq|].
    apply startsWith_inv in Ec.
    eexists. rewrite Eo at 1. f_equal. rewrite Hsplit at 1. f_equal.
    exact Ec.
  - intros (Hne & Hx & rest & ->).
    rewrite startsWith_app, drop_app_length.
    rewrite (takeWhile_stop _ g ((x :: c') ++ rest));
      [|by apply forallb_neq|simpl; by rewrite N.eqb_refl].
    destruct g as [|a g]; [done|].
    by rewrite drop_app_length, startsWith_app.
Qed.


(** ** Dictionaries *)

Lemma isSet_own {A} (obj : gmap jsstring A) (k : jsstring) :
  is_Some (obj !! k) -> isSet obj k = true.
Proof. intros H. unfold isSet. by rewrite bool_decide_eq_true_2. Qed.

Lemma isSet_free {A} (obj : gmap jsstring A) (k : jsstring) :
  obj !! k = None -> inherited k = false -> isSet obj k = false.
Proof.
  intros H Hk. unfold isSet. rewrite Hk, bool_decide_eq_false_2; [done|].
  rewrite H. by intros [? ?].
Qed.

Lemma assign_lookup (k v k' : jsstring) (obj : gmap jsstring jsstring) :
  assign k v obj !! k'
  = if bool_decide (k = k' /\ k <> lit "__proto__") then Some v
    else obj !! k'.
Proof.
  unfold assign. destruct (decide (k = lit "__proto__")) as [Hp|Hp].
  - rewrite (bool_decide_eq_true_2 _ Hp).
    rewrite bool_decide_eq_false_2; [done|]. by intros [_ ?].
  - rewrite (bool_decide_eq_false_2 _ Hp).
    destruct (decide (k = k')) as [<-|Hk].
    + rewrite lookup_insert_eq. by rewrite bool_decide_eq_true_2.
    + rewrite lookup_insert_ne by done.
      rewrite bool_decide_eq_false_2; [done|]. by intros [? _].
Qed.

(** ** Arrays *)

Lemma filterIndex_past {A} (idx i : nat) (arr : list A) :
  idx < i -> filterIndex (fun j => negb (j =? idx)) i arr = arr.
Proof.
  revert i. induction arr as [|a arr IH]; intros i Hlt; simpl; [done|].
  destruct (Nat.eqb_spec i idx) as [->|_]; [lia|].
  simpl. f_equal. apply IH. lia.
Qed.

Lemma filterIndex_split {A} (idx i : nat) (arr : list A) :
  i <= idx ->
  filterIndex (fun j => negb (j =? idx)) i arr
  = take (idx - i) arr ++ drop (S (idx - i)) arr.
Proof.
  revert i. induction arr as [|a arr IH]; intros i Hle; simpl.
  - by rewrite take_nil.
  - destruct (Nat.eqb_spec i idx) as [->|Hne]; simpl.
    + rewrite Nat.sub_diag. simpl. rewrite drop_0.
      apply filterIndex_past. lia.
    + replace (idx - i) with (S (idx - S i)) by lia. simpl.
      f_equal. apply IH. lia.
Qed.

Lemma without_take_drop {A} (idx : nat) (arr : list A) :
  without idx arr = take idx arr ++ drop (S idx) arr.
Proof.
  unfold without. rewrite filterIndex_split by lia.
  by rewrite Nat.sub_0_r.
Qed.

Lemma without_lookup_lt {A} (idx j : nat) (arr : list A) :
  j < idx -> without idx arr !! j = arr !! j.
Proof.
  intros Hj. rewrite without_take_drop.
  destruct (decide (idx <= length arr)) as [Hle|Hgt].
  - rewrite lookup_app_l by (rewrite length_take; lia).
    by apply lookup_take_lt.
  - rewrite take_ge, drop_ge, app_nil_r by lia. done.
Qed.

Lemma without_lookup_ge {A} (idx j : nat) (arr : list A) :
  idx <= j -> without idx arr !! j = arr !! S j.
Proof.
  intros Hj. rewrite without_take_drop.
  destruct (decide (idx <= length arr)) as [Hle|Hgt].
  - rewrite lookup_app_r by (rewrite length_take; lia).
    rewrite length_take, lookup_drop. f_equal. lia.
  - rewrite take_ge, drop_ge, app_nil_r by lia.
    rewrite !lookup_ge_None_2; [done|lia|lia].
Qed.

(** ** The trash *)

(** C10.  A confirmed [deleteForever(idx)] takes the entry at [idx] out of
    the trash and keeps the other entries in their order; a confirmed
    [emptyTrash()] leaves an empty trash; neither touches a note or the
    current selection. *)
Theorem deleteForever_emptyTrash_frame (idx : nat) (st : App) :
  deleteForever true idx st
  = mkApp (mkData (notes (data st))
                  (take idx (trash (data st)) ++ drop (S idx) (trash (data st))))
          (current st)
  /\ emptyTrash true st = mkApp (mkData (notes (data st)) []) (current st).
Proof.
  split.
  - unfold deleteForever, setData. simpl. by rewrite without_take_drop.
  - reflexivity.
Qed.

Lemma keysOf_spec (obj : gmap jsstring Note) (k : jsstring) :
  k ∈ keysOf obj <-> is_Some (obj !! k).
Proof.
  unfold keysOf. rewrite list_elem_of_fmap. split.
  - intros [[k' n] [-> Hin]]. apply elem_of_map_to_list in Hin. by exists n.
  - intros [n Hn]. exists (k, n). split; [done|].
    by apply elem_of_map_to_list.
Qed.

(** C9.  A confirmed [softDeleteNote(title)] for a title that is not a note
    runs to its end: it puts the entry [{title, content: empty, deletedAt:
    now}] at the head of the trash and leaves the notes as they are. *)
Theorem softDelete_inactive_title
    (ownKeys : gmap jsstring Note -> list jsstring)
    (now : Z) (t : jsstring) (st : App) :
  notes (data st) !! t = None ->
  trash (data (softDeleteNote ownKeys true now t st))
  = mkTrash t [] now :: trash (data st)
  /\ notes (data (softDeleteNote ownKeys true now t st)) = notes (data st).
Proof.
  intros Hnone. unfold softDeleteNote. simpl.
  assert (Hin : forall c, data (setCurrent c
      (setData (fun d => mkData (delete t (notes d))
         (mkTrash t (contentOrEmpty (notes d !! t)) now :: trash d)) st))
    = mkData (notes (data st)) (mkTrash t [] now :: trash (data st))).
  { intros c. simpl. rewrite Hnone. simpl. by rewrite delete_id. }
  case_bool_decide.
  - rewrite Hin. done.
  - specialize (Hin (current st)). unfold setCurrent in Hin. simpl in Hin.
    unfold setData. simpl. rewrite Hnone. simpl. by rewrite delete_id.
Qed.

Lemma softDelete_inactive_title_witness :
  trash (data (softDeleteNote keysOf true 7 (lit "Ghost") homeOnly))
  = mkTrash (lit "Ghost") [] 7 :: trash (data homeOnly)
  /\ notes (data (softDeleteNote keysOf true 7 (lit "Ghost") homeOnly))
     = notes (data homeOnly).
Proof.
  apply (softDelete_inactive_title keysOf 7 (lit "Ghost") homeOnly).
  vm_compute. reflexivity.
Defined.

(** ** Moving a note to the trash *)

Lemma nextTitle_cases (t : jsstring) (keys : list jsstring) :
  (nextTitle t keys = lit "Home"
   /\ (forall k, k ∈ keys -> k = t) )
  \/ (nextTitle t keys = lit "Home" /\ [] ∈ keys /\ [] <> t)
  \/ (nextTitle t keys ∈ keys /\ nextTitle t keys <> t).
Proof.
  unfold nextTitle.
  destruct (filter (fun k => k <> t) keys) as [|k ks] eqn:E.
  - left. split; [done|]. intros k Hk.
    destruct (decide (k = t)) as [|Hne]; [done|].
    assert (Hin : k ∈ filter (fun k => k <> t) keys)
      by (apply list_elem_of_filter; done).
    rewrite E in Hin. by apply elem_of_nil in Hin.
  - assert (Hin : k ∈ filter (fun k => k <> t) keys)
      by (rewrite E; left).
    apply list_elem_of_filter in Hin as [Hne Hin].
    destruct k as [|c k].
    + right. left. done.
    + right. right. done.
Qed.




(** ** Renaming *)

(** C6.  [renameNote] leaves the state as it is when the new title is empty
    or is the old one, and when the new title is the title of another note
    it alerts that the title exists and leaves notes, trash and current
    selection as they are. *)
Theorem renameNote_guards (st : App) (nt : jsstring) :
  (nt = [] \/ nt = current st -> renameNote (Some nt) st = Ret st)
  /\ (nt <> [] -> nt <> current st -> is_Some (notes (data st) !! nt) ->
      renameNote (Some nt) st = Alerted (lit "Title exists.") st).
Proof.
  split.
  - intros [-> | ->]; [done|]. unfold renameNote.
    destruct (current st); [done|]. by rewrite bool_decide_eq_true_2.
  - intros Hne Hcur [n Hn]. unfold renameNote.
    destruct nt as [|c nt]; [done|].
    rewrite bool_decide_eq_false_2 by done.
    by rewrite isSet_own by eauto.
Qed.

Lemma renameNote_guards_witness :
  renameNote (Some []) twoNotes = Ret twoNotes
  /\ renameNote (Some (lit "Home")) twoNotes = Ret twoNotes
  /\ renameNote (Some (lit "Work")) twoNotes
     = Alerted (lit "Title exists.") twoNotes.
Proof.
  split; [|split].
  - apply (proj1 (renameNote_guards twoNotes [])). by left.
  - apply (proj1 (renameNote_guards twoNotes (lit "Home"))). by right.
  - apply (proj2 (renameNote_guards twoNotes (lit "Work"))).
    + discriminate.
    + discriminate.
    + vm_compute. eauto.
Defined.

(** [NotesView.renameNote] moves the record and stamps it with the time of
    the rename. *)
Lemma NotesView_renameNote_moves (now : Z) (old nt : jsstring) (r : Note)
    (v : NotesView.View) :
  NotesView.notes v !! old = Some r ->
  nt <> [] -> nt <> old ->
  NotesView.notes v !! nt = None -> inherited nt = false ->
  NotesView.renameNote now old nt v
  = Ret (NotesView.mkView
           (delete old (<[nt := mkNote (content r) now]> (NotesView.notes v)))
           nt).
Proof.
  intros Hold Hne Hdiff Hfree Hown. unfold NotesView.renameNote.
  rewrite !bool_decide_eq_false_2 by done. simpl.
  by rewrite isSet_free, Hold.
Qed.

Lemma NotesView_renameNote_moves_witness :
  NotesView.renameNote 9 (lit "Home") (lit "Start")
    (NotesView.mkView (notes (data homeOnly)) (lit "Home"))
  = Ret (NotesView.mkView
           (delete (lit "Home")
              (<[lit "Start" := mkNote (lit "Welcome") 9]>
                 (notes (data homeOnly))))
           (lit "Start")).
Proof.
  apply (NotesView_renameNote_moves 9 (lit "Home") (lit "Start")
           (mkNote (lit "Welcome") 1)
           (NotesView.mkView (notes (data homeOnly)) (lit "Home"))).
  - vm_compute. reflexivity.
  - discriminate.
  - discriminate.
  - vm_compute. reflexivity.
  - vm_compute. reflexivity.
Defined.

(** [App]'s [renameNote] moves the record as it is, its [updated] included. *)
Lemma renameNote_moves (nt : jsstring) (r : Note) (st : App) :
  notes (data st) !! current st = Some r ->
  nt <> [] -> nt <> current st ->
  notes (data st) !! nt = None -> inherited nt = false ->
  renameNote (Some nt) st
  = Ret (mkApp (mkData (delete (current st) (<[nt := r]> (notes (data st))))
                       (trash (data st)))
               nt).
Proof.
  intros Hold Hne Hdiff Hfree Hown. unfold renameNote.
  destruct nt as [|c nt]; [done|].
  rewrite bool_decide_eq_false_2 by done.
  by rewrite isSet_free, Hold.
Qed.

Lemma renameNote_moves_witness :
  renameNote (Some (lit "Start")) homeOnly
  = Ret (mkApp (mkData (delete (lit "Home")
                          (<[lit "Start" := mkNote (lit "Welcome") 1]>
                             (notes (data homeOnly))))
                       [])
               (lit "Start")).
Proof.
  apply (renameNote_moves (lit "Start") (mkNote (lit "Welcome") 1) homeOnly).
  - vm_compute. reflexivity.
  - discriminate.
  - discriminate.
  - vm_compute. reflexivity.
  - vm_compute. reflexivity.
Defined.

(** C2.  Renaming Home, last updated at 1, to Start: [App]'s [renameNote]
    keeps the content and selects Start, and the record still says
    [updated = 1]; [NotesView]'s [renameNote], called at time 9, writes
    [updated = 9]. *)
Theorem renameNote_keeps_updated :
  renameNote (Some (lit "Start")) homeOnly
  = Ret (mkApp (mkData {[ lit "Start" := mkNote (lit "Welcome") 1 ]} [])
               (lit "Start"))
  /\ NotesView.renameNote 9 (lit "Home") (lit "Start")
       (NotesView.mkView (notes (data homeOnly)) (current homeOnly))
     = Ret (NotesView.mkView {[ lit "Start" := mkNote (lit "Welcome") 9 ]}
                             (lit "Start")).
Proof. split; vm_compute; reflexivity. Qed.

(** ** Restoring *)

(** What [restoreTrash] does for an index of the trash: the entry leaves the
    trash, the note is written under the title of the entry, or under that
    title followed by the marker when [data.notes[title]] is set, with the
    time of the call; it becomes the current note, and every other key of
    the notes keeps its record. *)
Lemma restoreTrash_spec (now : Z) (idx : nat) (item : TrashEntry) (st : App) :
  trash (data st) !! idx = Some item ->
  exists st' t,
    restoreTrash now idx st = Some st'
    /\ t = (if isSet (notes (data st)) (title item)
            then title item ++ lit " (restored)" else title item)
    /\ trash (data st')
       = take idx (trash (data st)) ++ drop (S idx) (trash (data st))
    /\ notes (data st') !! t = Some (mkNote (t_content item) now)
    /\ current st' = t
    /\ forall k, k <> t -> notes (data st') !! k = notes (data st) !! k.
Proof.
  intros Hitem. unfold restoreTrash. rewrite Hitem.
  eexists _, _. split; [reflexivity|]. simpl.
  split; [done|]. split; [apply without_take_drop|].
  split; [apply lookup_insert_eq|]. split; [done|].
  intros k Hk. by apply lookup_insert_ne.
Qed.

Lemma restoreTrash_spec_witness :
  exists st' t,
    restoreTrash 9 0 twoNotesOneTrashed = Some st'
    /\ t = (if isSet (notes (data twoNotesOneTrashed)) (lit "Work")
            then lit "Work" ++ lit " (restored)" else lit "Work")
    /\ trash (data st')
       = take 0 (trash (data twoNotesOneTrashed))
         ++ drop 1 (trash (data twoNotesOneTrashed))
    /\ notes (data st') !! t = Some (mkNote (lit "old todo") 9)
    /\ current st' = t
    /\ forall k, k <> t ->
         notes (data st') !! k = notes (data twoNotesOneTrashed) !! k.
Proof.
  apply (restoreTrash_spec 9 0 (mkTrash (lit "Work") (lit "old todo") 3)
           twoNotesOneTrashed).
  reflexivity.
Defined.

(** C1.  With the notes Project and Project (restored) and the trash entry
    Project, [restoreTrash(0)] writes the entry over the note
    Project (restored): its record (keep me, 6) is replaced by
    (old text, 9). *)
Theorem restoreTrash_overwrites_suffixed_title :
  notes (data projectTwice) !! lit "Project (restored)"
  = Some (mkNote (lit "keep me") 6)
  /\ restoreTrash 9 0 projectTwice
     = Some (mkApp (mkData
                      (<[ lit "Project (restored)"
                          := mkNote (lit "old text") 9 ]>
                         {[ lit "Project" := mkNote (lit "new text") 5 ]})
                      [])
                   (lit "Project (restored)")).
Proof. split; vm_compute; reflexivity. Qed.

(** ** Wiki-links in the preview *)

Lemma replaceSpan_skip (o : jsstring) (x : N) (c : jsstring)
    (mk : jsstring -> jsstring) (n : nat) (s : jsstring) :
  replaceSpan o x c mk n s = replaceSpan o x c mk 0 (drop n s).
Proof.
  revert n. induction s as [|d s IH]; intros [|n]; try done.
  cbn [replaceSpan drop]. apply IH.
Qed.

(** A token at the head of the text is replaced by what [mk] makes of its
    group, and the replacement goes on behind the token. *)
Lemma replaceSpan_token (o : jsstring) (x : N) (c' : jsstring)
    (mk : jsstring -> jsstring) (g post : jsstring) :
  g <> [] -> x ∉ g ->
  replaceSpan o x (x :: c') mk 0 (o ++ g ++ (x :: c') ++ post)
  = mk g ++ replaceSpan o x (x :: c') mk 0 post.
Proof.
  intros Hne Hx.
  assert (Hm : matchSpan o x (x :: c') (o ++ g ++ (x :: c') ++ post)
               = Some g) by (apply matchSpan_spec; eauto).
  assert (Hlen : length (o ++ g ++ (x :: c') ++ post)
                 = length o + length g + length (x :: c') + length post)
    by (rewrite !length_app; lia).
  assert (Hdrop : drop (length o + length g + length (x :: c'))
                    (o ++ g ++ (x :: c') ++ post) = post).
  { replace (o ++ g ++ (x :: c') ++ post)
      with ((o ++ g ++ x :: c') ++ post) by (by rewrite <- !app_assoc).
    replace (length o + length g + length (x :: c'))
      with (length (o ++ g ++ x :: c')) by (rewrite !length_app; lia).
    apply drop_app_length. }
  destruct (o ++ g ++ (x :: c') ++ post) as [|d s] eqn:E.
  - simpl in Hlen. lia.
  - cbn [replaceSpan]. rewrite Hm. f_equal.
    rewrite replaceSpan_skip. f_equal.
    replace (length o + length g + length (x :: c') - 1)
      with (length o + length g + length c') by (simpl; lia).
    replace (length o + length g + length (x :: c'))
      with (S (length o + length g + length c')) in Hdrop by (simpl; lia).
    exact Hdrop.
Qed.

(** A line that is no heading: the entities are written first, then bold,
    italic, underline and the wiki-links are replaced, in this order. *)
Lemma renderLine_paragraph (line : jsstring) :
  heading (lit "###") line = None ->
  heading (lit "##") line = None ->
  heading (lit "#") line = None ->
  renderLine line
  = tag "p" (match wikilinks (underline (italic (bold (esc line)))) with
             | [] => lit "&nbsp;"
             | c :: t => c :: t
             end).
Proof.
  intros H3 H2 H1. unfold renderLine. rewrite H3, H2, H1. cbv zeta.
  by destruct (wikilinks (underline (italic (bold (esc line))))).
Qed.

(** A wiki-link token becomes the anchor whose [data-title] and text hold
    the characters between the brackets as they stand. *)
Lemma wikilinks_token (g post : jsstring) :
  g <> [] -> (ch "]") ∉ g ->
  wikilinks (lit "[[" ++ g ++ lit "]]" ++ post) = anchor g ++ wikilinks post.
Proof.
  intros Hne Hx. unfold wikilinks.
  apply (replaceSpan_token (lit "[[") (ch "]") [(ch "]")] anchor g post Hne Hx).
Qed.

Lemma wikilinks_token_witness :
  wikilinks (lit "[[" ++ lit " Bob " ++ lit "]]" ++ lit " and more")
  = anchor (lit " Bob ") ++ wikilinks (lit " and more").
Proof.
  apply (wikilinks_token (lit " Bob ") (lit " and more")).
  - discriminate.
  - apply (proj1 (forallb_neq (ch "]") (lit " Bob "))). reflexivity.
Defined.

(** C7.  For the line [[ Bob ]] the preview holds an anchor whose
    [data-title] is the enclosed text with its blanks, the click handler
    creates and selects the note of that title, blanks included, while
    [renderWikiLinks] opens the trimmed title Bob. *)
Theorem renderMarkdown_title_untrimmed :
  renderMarkdown bobLine
  = lit "<p><a href=" ++ [DQ] ++ lit "#" ++ [DQ] ++ lit " class=" ++ [DQ]
    ++ lit "wikilink" ++ [DQ] ++ lit " data-title=" ++ [DQ] ++ lit " Bob "
    ++ [DQ] ++ lit ">[[ Bob ]]</a></p>"
  /\ dataTitles bobLine = [lit " Bob "]
  /\ handler (lit " Bob ") 9 homeOnly
     = mkApp (mkData (<[ lit " Bob " := mkNote [] 9 ]> (notes (data homeOnly)))
                     [])
             (lit " Bob ")
  /\ trim (lit " Bob ") = lit "Bob"
  /\ NotesView.linkTitles bobLine = [lit "Bob"].
Proof. repeat split; vm_compute; reflexivity. Qed.

(** ** Backlinks *)






(** The other two changes to C4.  The content is searched as it is stored:
    A, whose body is the word plain, is a backlink of B for the link in its
    front matter.  The group of a token holds no closing bracket: A, whose
    content holds the title a]b between double brackets, holds no token and
    is no backlink of that title. *)
Lemma backlinks_limits :
  body (parseFrontMatter (opening ++ lit "see: [[B]]" ++ closing
                          ++ NL :: lit "plain")) = lit "plain"
  /\ NotesView.linkTitles (lit "plain") = []
  /\ (backlinks keysOf (lit "B") linkInFrontMatter).*1 = [lit "A"]
  /\ includes (lit "[[" ++ lit "a]b" ++ lit "]]") (lit "[[a]b]]") = true
  /\ backlinks keysOf (lit "a]b") bracketInTitle = [].
Proof. repeat split; vm_compute; reflexivity. Qed.

(** ** The front-matter parser *)

Lemma occursAt_drop (p s : jsstring) (from i : nat) :
  from <= length s ->
  occursAt p (from + i) s <-> occursAt p i (drop from s).
Proof.
  intros Hfrom. split.
  - intros (a & b & Hs & Ha). exists (drop from a), b. split.
    + rewrite Hs. rewrite drop_app_le by lia. done.
    + rewrite length_drop. lia.
  - intros (a & b & Hs & Ha). exists (take from s ++ a), b. split.
    + rewrite <- app_assoc, <- Hs. by rewrite take_drop.
    + rewrite length_app, length_take. lia.
Qed.

Lemma indexOf_Some (p s : jsstring) (from e : nat) :
  from <= length s ->
  indexOf p from s = Some e ->
  from <= e /\ occursAt p e s
  /\ forall j, from <= j < e -> ~ occursAt p j s.
Proof.
  intros Hfrom. unfold indexOf.
  rewrite Nat.min_l by done.
  destruct (search p (drop from s)) as [i|] eqn:E; [|done].
  simpl. intros [= <-]. apply search_Some in E as [Hocc Hmin].
  split; [lia|]. split; [by apply occursAt_drop|].
  intros j Hj Hoccj. apply (Hmin (j - from)); [lia|].
  apply occursAt_drop; [done|]. by replace (from + (j - from)) with j by lia.
Qed.

Lemma indexOf_None (p s : jsstring) (from : nat) :
  from <= length s ->
  indexOf p from s = None ->
  forall j, from <= j -> ~ occursAt p j s.
Proof.
  intros Hfrom. unfold indexOf.
  rewrite Nat.min_l by done.
  destruct (search p (drop from s)) as [i|] eqn:E; [done|].
  intros _ j Hj Hocc. apply search_None in E. apply E.
  replace j with (from + (j - from)) in Hocc by lia.
  apply occursAt_drop in Hocc as (a & b & Hs & _); [|done].
  by exists a, b.
Qed.

Lemma indexOf_least (p s : jsstring) (from e : nat) :
  from <= length s -> from <= e -> occursAt p e s ->
  (forall j, from <= j < e -> ~ occursAt p j s) ->
  indexOf p from s = Some e.
Proof.
  intros Hfrom He Hocc Hmin.
  destruct (indexOf p from s) as [e'|] eqn:E.
  - apply indexOf_Some in E as (He' & Hocc' & Hmin'); [|done].
    f_equal. destruct (Nat.lt_trichotomy e' e) as [Hlt | [-> | Hgt]].
    + exfalso. apply (Hmin e'); [lia|done].
    + done.
    + exfalso. apply (Hmin' e); [lia|done].
  - exfalso. by apply (indexOf_None p s from Hfrom E e He).
Qed.

Lemma dropWhile_takeWhile (P : N -> bool) (s : jsstring) :
  dropWhile P s = drop (length (takeWhile P s)) s.
Proof.
  induction s as [|c s IH]; simpl; [done|].
  destruct (P c); simpl; done.
Qed.

Lemma dropWhile_stop (P : N -> bool) (ws rest : jsstring) :
  forallb P ws = true ->
  match rest with [] => True | c :: _ => P c = false end ->
  dropWhile P (ws ++ rest) = rest.
Proof.
  intros Hws Hrest. induction ws as [|c ws IH]; simpl in *.
  - destruct rest as [|c rest]; [done|]. simpl. by rewrite Hrest.
  - apply andb_true_iff in Hws as [Hc Hws]. rewrite Hc. by apply IH.
Qed.

Lemma matchProp_spec (line key value : jsstring) :
  matchProp line = Some (key, value) <-> propLine line key value.
Proof.
  unfold matchProp, propLine. cbv zeta. split.
  - destruct (takeWhile_split (fun c => negb (N.eqb c (ch ":"))) line)
      as (Hsplit & Hall & Hnext).
    destruct (takeWhile (fun c => negb (N.eqb c (ch ":"))) line)
      as [|k0 key'] eqn:Ek; [done|].
    destruct (drop (length (k0 :: key')) line) as [|c rest] eqn:Er; [done|].
    apply negb_false_iff, N.eqb_eq in Hnext as ->.
    destruct (forallb (fun c => negb (isLineTerminator c))
                (dropWhile isSpace rest)) eqn:Ev; [|done].
    intros [= <- <-].
    destruct (takeWhile_split isSpace rest) as (Hrs & Hws & Hv).
    exists (takeWhile isSpace rest).
    rewrite dropWhile_takeWhile in *.
    split; [by rewrite <- Hrs|].
    split; [done|]. split; [by apply forallb_neq|]. done.
  - intros (ws & -> & Hne & Hcolon & Hws & Hhead & Hterm).
    rewrite (takeWhile_stop _ key ((ch ":") :: ws ++ value));
      [|by apply forallb_neq|done].
    destruct key as [|k0 key]; [done|].
    rewrite (drop_app_length (k0 :: key)).
    rewrite (dropWhile_stop isSpace ws value) by done.
    by rewrite Hterm.
Qed.

Lemma propLine_functional (line key value key' value' : jsstring) :
  propLine line key value -> propLine line key' value' ->
  key = key' /\ value = value'.
Proof.
  intros H H'. apply matchProp_spec in H, H'.
  rewrite H in H'. by injection H' as -> ->.
Qed.

Lemma lastProp_nil (k v : jsstring) : ~ lastProp [] k v.
Proof. intros (before & l & after & ? & ? & Heq & _). by destruct before. Qed.

(** The last line decides, and the lines before it when it gives nothing
    to [k]. *)
Lemma lastProp_snoc (lines : list jsstring) (line k v : jsstring) :
  lastProp (lines ++ [line]) k v <->
  (exists key value,
     propLine line key value /\ trim key = k /\ trim value = v)
  \/ ((forall key value, propLine line key value -> trim key <> k)
      /\ lastProp lines k v).
Proof.
  split.
  - intros (before & l & after & key & value & Heq & Hl & Hk & Hv & Hlater).
    destruct after as [|x after _] using rev_ind.
    + apply app_inj_tail in Heq as [_ <-]. left. eauto.
    + rewrite app_comm_cons, app_assoc in Heq.
      apply app_inj_tail in Heq as [-> <-]. right. split.
      * intros key' value'. apply Hlater. apply elem_of_app. right. left.
      * exists before, l, after, key, value. repeat split; try done.
        intros line' key' value' Hin. apply Hlater.
        apply elem_of_app. by left.
  - intros [(key & value & Hl & Hk & Hv) | [Hnot Hlast]].
    + exists lines, line, [], key, value. repeat split; try done.
      intros ? ? ? Hin. by apply elem_of_nil in Hin.
    + destruct Hlast
        as (before & l & after & key & value & -> & Hl & Hk & Hv & Hlater).
      exists before, l, (after ++ [line]), key, value.
      rewrite <- app_assoc. repeat split; try done.
      intros line' key' value' Hin Hline'.
      apply elem_of_app in Hin as [Hin|Hin]; [by eapply Hlater|].
      apply list_elem_of_singleton in Hin as ->. by eapply Hnot.
Qed.

Lemma foldl_addProp_lookup (lines : list jsstring) (k v : jsstring) :
  foldl addProp ∅ lines !! k = Some v
  <-> k <> lit "__proto__" /\ lastProp lines k v.
Proof.
  induction lines as [|line lines IH] using rev_ind.
  - simpl. rewrite lookup_empty. split; [done|].
    intros [_ H]. by apply lastProp_nil in H.
  - rewrite foldl_snoc, lastProp_snoc. unfold addProp.
    destruct (matchProp line) as [[key value]|] eqn:E.
    + apply matchProp_spec in E as Hline. rewrite assign_lookup.
      case_bool_decide as Hk.
      * destruct Hk as [Hk Hproto]. split.
        -- intros [= <-]. split; [by rewrite <- Hk|]. left. eauto.
        -- intros [_ [(key' & value' & Hl & _ & Hv) | [Hnot _]]].
           ++ destruct (propLine_functional _ _ _ _ _ Hline Hl) as [_ <-].
              by rewrite Hv.
           ++ by apply Hnot in Hline.
      * rewrite IH. split.
        -- intros [Hproto Hlast]. split; [done|]. right. split; [|done].
           intros key' value' Hl Hk'.
           destruct (propLine_functional _ _ _ _ _ Hline Hl) as [<- _].
           apply Hk. split; [done|]. by rewrite Hk'.
        -- intros [Hproto [(key' & value' & Hl & Hk' & _) | [_ Hlast]]];
             [|done].
           destruct (propLine_functional _ _ _ _ _ Hline Hl) as [<- _].
           exfalso. apply Hk. split; [done|]. by rewrite Hk'.
    + rewrite IH. split.
      * intros [Hproto Hlast]. split; [done|]. right. split; [|done].
        intros key value Hl. apply matchProp_spec in Hl. congruence.
      * intros [Hproto [(key & value & Hl & _) | [_ Hlast]]]; [|done].
        apply matchProp_spec in Hl. congruence.
Qed.

Lemma startsWith_false (p s : jsstring) :
  startsWith p s = false -> forall rest, s <> p ++ rest.
Proof. intros H rest ->. by rewrite startsWith_app in H. Qed.

(** The parser at the least offset [e], from 4 on, of a newline followed by
    three dashes. *)
Lemma parseFrontMatter_at (text : jsstring) :
  ((forall rest, text <> opening ++ rest) ->
   parseFrontMatter text = mkParsed ∅ text)
  /\ ((forall e, 4 <= e -> ~ occursAt closing e text) ->
      parseFrontMatter text = mkParsed ∅ text)
  /\ (forall rest e,
        text = opening ++ rest -> 4 <= e -> occursAt closing e text ->
        (forall j, 4 <= j < e -> ~ occursAt closing j text) ->
        body (parseFrontMatter text) = stripLeadingNL (drop (e + 4) text)
        /\ forall k v,
             props (parseFrontMatter text) !! k = Some v
             <-> k <> lit "__proto__"
                 /\ lastProp (splitNL (trim (slice 4 e text))) k v).
Proof.
  assert (Hlen : forall rest, text = opening ++ rest -> 4 <= length text).
  { intros rest ->. rewrite length_app. simpl. lia. }
  unfold parseFrontMatter. fold opening closing. split; [|split].
  - intros Hno. destruct (startsWith opening text) eqn:E; [|done].
    apply startsWith_inv in E. by apply Hno in E.
  - intros Hno. destruct (startsWith opening text) eqn:E; [|done].
    destruct (indexOf closing 4 text) as [e|] eqn:Ei; [|done].
    apply startsWith_inv in E.
    apply indexOf_Some in Ei as (He & Hocc & _); [|by eapply Hlen].
    by apply Hno in Hocc.
  - intros rest e Htext He Hocc Hmin.
    assert (Hs : startsWith opening text = true)
      by (rewrite Htext; apply startsWith_app).
    rewrite Hs, (indexOf_least closing text 4 e) by eauto.
    split; [done|]. intros k v. apply foldl_addProp_lookup.
Qed.

Lemma slice_header (J rest : jsstring) :
  slice 4 (4 + length J) (opening ++ J ++ rest) = J.
Proof.
  unfold slice.
  replace (drop 4 (opening ++ J ++ rest)) with (J ++ rest) by reflexivity.
  replace (4 + length J - 4) with (length J) by lia.
  by rewrite take_app_length.
Qed.

Lemma drop_header (J rest : jsstring) :
  drop (4 + length J + 4) (opening ++ J ++ closing ++ rest) = rest.
Proof.
  replace (opening ++ J ++ closing ++ rest)
    with ((opening ++ J ++ closing) ++ rest)
    by (by rewrite <- !app_assoc).
  replace (4 + length J + 4) with (length (opening ++ J ++ closing))
    by (rewrite !length_app; simpl; lia).
  by rewrite drop_app_length.
Qed.

(** A newline followed by three dashes that starts inside [header] lies
    inside [header], when a newline follows [header]. *)
Lemma closing_inside (header after : jsstring) (j : nat) :
  ~ occurs closing header -> j < length header ->
  ~ occursAt closing j (header ++ closing ++ after).
Proof.
  intros Hno Hj (a & b & Heq & Ha). apply Hno.
  assert (Hsplit : header = a ++ drop (length a) header).
  { assert (Ht : take (length a) (header ++ closing ++ after) = a)
      by (rewrite Heq; apply take_app_length).
    rewrite take_app_le in Ht by lia.
    rewrite <- Ht at 1. by rewrite take_drop. }
  rewrite Hsplit, <- app_assoc in Heq. apply app_inv_head in Heq.
  assert (Hlen : length (drop (length a) header) <> 0)
    by (rewrite length_drop; lia).
  destruct (drop (length a) header) as [|c0 [|c1 [|c2 [|c3 h]]]];
    try done; try discriminate Heq.
  injection Heq as -> -> -> -> _.
  exists a, h. by rewrite Hsplit at 1.
Qed.

(** The first place where [p] occurs. *)
Lemma first_occurrence (p s : jsstring) :
  occurs p s ->
  exists a b, s = a ++ p ++ b
              /\ forall j, j < length a -> ~ occursAt p j s.
Proof.
  intros Hocc. destruct (search p s) as [i|] eqn:E.
  - apply search_Some in E as [(a & b & -> & <-) Hmin]. by exists a, b.
  - by apply search_None in E.
Qed.

(** C3, as the code has it.  [parseFrontMatter] is a total function.  When
    the text does not start with three dashes and a newline, or the text
    after these four characters holds no newline followed by three dashes,
    it gives no property and the whole text as body.  Otherwise, [header]
    being the text between the opening line and the first newline followed
    by three dashes (whatever follows them on that line) and [after] the
    text behind these four characters, the body is [after] less one leading
    newline, and the properties are read off the lines of the trimmed
    [header]: a line with a non-empty key before its first colon and a
    value without line terminator gives the trimmed value to the trimmed
    key, the last such line for a key wins, and other lines are passed
    over, as is a line for the key [__proto__]. *)
Theorem parseFrontMatter_spec (text : jsstring) :
  ((forall rest, text <> opening ++ rest) ->
   parseFrontMatter text = mkParsed ∅ text)
  /\ (forall rest, text = opening ++ rest -> ~ occurs closing rest ->
      parseFrontMatter text = mkParsed ∅ text)
  /\ (forall header after,
        text = opening ++ header ++ closing ++ after ->
        ~ occurs closing header ->
        body (parseFrontMatter text) = stripLeadingNL after
        /\ forall k v,
             props (parseFrontMatter text) !! k = Some v
             <-> k <> lit "__proto__"
                 /\ lastProp (splitNL (trim header)) k v).
Proof.
  destruct (parseFrontMatter_at text) as (Hopen & Hnone & Hfound).
  split; [exact Hopen|]. split.
  - intros rest Htext Hno. apply Hnone. intros e He Hocc. apply Hno.
    replace e with (4 + (e - 4)) in Hocc by lia.
    rewrite Htext in Hocc. apply occursAt_drop in Hocc as (a & b & Hs & _).
    + exists a, b. exact Hs.
    + rewrite length_app. simpl. lia.
  - intros header after Htext Hno.
    destruct (Hfound (header ++ closing ++ after) (4 + length header))
      as [Hbody Hprops].
    + exact Htext.
    + lia.
    + exists (opening ++ header), after. split.
      * by rewrite Htext, <- app_assoc.
      * rewrite length_app. simpl. lia.
    + intros j Hj Hocc. replace j with (4 + (j - 4)) in Hocc by lia.
      rewrite Htext in Hocc. apply occursAt_drop in Hocc.
      * apply (closing_inside header after (j - 4)); [done|lia|done].
      * rewrite length_app. simpl. lia.
    + replace (drop (4 + length header + 4) text) with after in Hbody
        by (by rewrite Htext, drop_header).
      replace (slice 4 (4 + length header) text) with header in Hprops
        by (by rewrite Htext, slice_header).
      done.
Qed.

(** The three cases of [parseFrontMatter_spec] leave no text out. *)
Lemma parseFrontMatter_cases (text : jsstring) :
  (forall rest, text <> opening ++ rest)
  \/ (exists rest, text = opening ++ rest /\ ~ occurs closing rest)
  \/ (exists header after,
        text = opening ++ header ++ closing ++ after
        /\ ~ occurs closing header).
Proof.
  destruct (startsWith opening text) eqn:E;
    [|left; by apply startsWith_false].
  apply startsWith_inv in E. right.
  set (rest := drop (length opening) text) in *.
  destruct (search closing rest) as [i|] eqn:Es.
  - right. apply search_Some in Es as [(a & b & Hs & Ha) Hmin].
    exists a, b. split; [by rewrite E, Hs|].
    intros (a' & b' & Hocc).
    apply (Hmin (length a')).
    + rewrite <- Ha, Hocc, !length_app. simpl. lia.
    + exists a', (b' ++ closing ++ b). split; [|done].
      by rewrite Hs, Hocc, <- !app_assoc.
  - left. exists rest. split; [done|]. by apply search_None.
Qed.

Lemma parseFrontMatter_spec_witness :
  body (parseFrontMatter scenario3) = lit "Hi [[Bob]]"
  /\ props (parseFrontMatter scenario3) !! lit "priority" = Some (lit "high").
Proof.
  destruct (proj2 (proj2 (parseFrontMatter_spec scenario3))
              (lit "priority: high") (NL :: lit "Hi [[Bob]]") eq_refl)
    as [Hbody Hprops].
  { apply search_None. vm_compute. reflexivity. }
  split.
  - rewrite Hbody. vm_compute. reflexivity.
  - apply Hprops. split; [discriminate|].
    exists [], (lit "priority: high"), [], (lit "priority"), (lit "high").
    split; [vm_compute; reflexivity|].
    split; [|split; [vm_compute; reflexivity|]].
    + exists [(ch " ")]. split; [reflexivity|]. split; [discriminate|].
      split; [|by vm_compute].
      apply (proj1 (forallb_neq (ch ":") (lit "priority"))). reflexivity.
    + split; [vm_compute; reflexivity|].
      intros line' key' value' Hin. by apply elem_of_nil in Hin.
Defined.

(** C3 as stated fails on both texts.  In the first no line consists of
    three dashes (the only newline followed by three dashes is followed by
    x), and a property and a shortened body are returned.  The second
    starts with a line of three dashes, its next line is three dashes
    again, and the whole text is returned as body. *)
Lemma parseFrontMatter_delimiter_lines :
  (forall a b, dashesAndMore = a ++ closing ++ b ->
               exists c b', b = c :: b' /\ c <> NL)
  /\ parseFrontMatter dashesAndMore
     = mkParsed {[ lit "k" := lit "v" ]} (lit "x" ++ NL :: lit "body")
  /\ emptyBlock = lit "---" ++ closing ++ NL :: lit "body"
  /\ parseFrontMatter emptyBlock = mkParsed ∅ emptyBlock.
Proof.
  split; [|repeat split; vm_compute; reflexivity].
  intros a b H.
  cbv [dashesAndMore opening closing lit list_ascii_of_string] in H.
  simpl in H.
  repeat match type of H with
         | _ = ?a' ++ _ =>
           is_var a'; destruct a' as [|? a'];
           [ simpl in H; try discriminate H
           | simpl in H; try discriminate H; injection H as <- H ]
         end.
  injection H as <-. eexists _, _. split; [reflexivity|discriminate].
Qed.

(** ** Writing front matter and reading it back *)

Lemma dropWhile_length (P : N -> bool) (s : jsstring) :
  length (dropWhile P s) <= length s.
Proof.
  induction s as [|c s IH]; simpl; [done|]. destruct (P c); simpl; lia.
Qed.

Lemma dropWhile_full (P : N -> bool) (s : jsstring) :
  length (dropWhile P s) = length s ->
  match s with [] => True | c :: _ => P c = false end.
Proof.
  destruct s as [|c s]; simpl; [done|]. destruct (P c) eqn:E; [|done].
  pose proof (dropWhile_length P s). lia.
Qed.

Lemma dropWhile_id (P : N -> bool) (s : jsstring) :
  match s with [] => True | c :: _ => P c = false end ->
  dropWhile P s = s.
Proof. destruct s as [|c s]; simpl; [done|]. by intros ->. Qed.

Lemma trim_fixed (s : jsstring) :
  trim s = s -> headOK s /\ headOK (rev s).
Proof.
  unfold trim. intros H.
  assert (Hlen : length (dropWhile isSpace (rev (dropWhile isSpace s)))
                 = length s).
  { rewrite <- H at 2. by rewrite length_rev. }
  pose proof (dropWhile_length isSpace s) as H1.
  pose proof (dropWhile_length isSpace (rev (dropWhile isSpace s))) as H2.
  rewrite length_rev in H2.
  assert (Hhead : headOK s) by (apply dropWhile_full; lia).
  split; [done|].
  rewrite (dropWhile_id isSpace s Hhead) in Hlen.
  apply dropWhile_full. by rewrite length_rev.
Qed.

Lemma trim_keep (s : jsstring) :
  headOK s -> headOK (rev s) -> trim s = s.
Proof.
  intros H1 H2. unfold trim.
  rewrite (dropWhile_id isSpace s H1), (dropWhile_id isSpace (rev s) H2).
  apply rev_involutive.
Qed.

Lemma trim_blank_end (s : jsstring) :
  s <> [] -> headOK s -> headOK (rev s) -> trim (s ++ [(ch " ")]) = s.
Proof.
  intros Hne H1 H2. unfold trim.
  rewrite (dropWhile_id isSpace (s ++ [(ch " ")]))
    by (destruct s; [done|exact H1]).
  rewrite rev_app_distr. simpl.
  rewrite (dropWhile_id isSpace (rev s) H2).
  apply rev_involutive.
Qed.

Lemma headOK_app (s t : jsstring) : s <> [] -> headOK s -> headOK (s ++ t).
Proof. by destruct s. Qed.

(** *** Splitting the lines that were joined *)

Lemma splitNL_plain (l : jsstring) : NL ∉ l -> splitNL l = [l].
Proof.
  induction l as [|c l IH]; [done|]. intros Hnl.
  apply not_elem_of_cons in Hnl as [Hc Hl]. simpl.
  rewrite (proj2 (N.eqb_neq c NL)) by congruence.
  by rewrite IH.
Qed.

Lemma splitNL_line (l rest : jsstring) :
  NL ∉ l -> startsWith [NL] rest = false ->
  splitNL (l ++ NL :: rest) = l :: splitNL rest.
Proof.
  intros Hnl Hrest. induction l as [|c l IH].
  - cbn [app splitNL]. by rewrite N.eqb_refl, Hrest.
  - apply not_elem_of_cons in Hnl as [Hc Hl]. cbn [app splitNL].
    rewrite (proj2 (N.eqb_neq c NL)) by congruence.
    by rewrite IH.
Qed.

Lemma startsWith_NL_app (l rest : jsstring) :
  l <> [] -> NL ∉ l -> startsWith [NL] (l ++ rest) = false.
Proof.
  destruct l as [|c l]; [done|]. intros _ Hnl.
  apply not_elem_of_cons in Hnl as [Hc _]. cbn [app startsWith].
  rewrite (proj2 (N.eqb_neq NL c)) by congruence. done.
Qed.

Lemma splitNL_lines (init : list jsstring) (last : jsstring) :
  Forall (fun l => l <> [] /\ (NL ∉ l)) (init ++ [last]) ->
  splitNL (flat_map (fun l => l ++ [NL]) init ++ last) = init ++ [last].
Proof.
  induction init as [|l init IH]; simpl; intros Hall.
  - apply splitNL_plain. by apply Forall_singleton in Hall as [_ ?].
  - apply Forall_cons in Hall as [[Hne Hnl] Hall].
    rewrite <- !app_assoc. simpl.
    rewrite splitNL_line; [by rewrite IH|done|].
    destruct init as [|l' init]; simpl.
    + apply Forall_singleton in Hall as [? ?].
      rewrite <- (app_nil_r last). by apply startsWith_NL_app.
    + apply Forall_cons in Hall as [[? ?] _].
      rewrite <- !app_assoc. by apply startsWith_NL_app.
Qed.

(** *** Finding the closing line *)

Lemma search_skip (p l s : jsstring) :
  NL ∉ l ->
  search (NL :: p) (l ++ s) = (fun i => length l + i) <$> search (NL :: p) s.
Proof.
  intros Hnl. induction l as [|c l IH]; simpl app.
  - by destruct (search (NL :: p) s).
  - apply not_elem_of_cons in Hnl as [Hc Hl]. cbn [search startsWith].
    rewrite (proj2 (N.eqb_neq NL c)) by congruence. simpl.
    rewrite IH by done. by destruct (search (NL :: p) s).
Qed.

Lemma search_next_line (p s : jsstring) :
  startsWith p s = false ->
  search (NL :: p) (NL :: s) = S <$> search (NL :: p) s.
Proof.
  intros Hp. cbn [search startsWith]. by rewrite N.eqb_refl, Hp.
Qed.

Lemma search_head (p rest : jsstring) : search p (p ++ rest) = Some 0.
Proof.
  pose proof (startsWith_app p rest) as H.
  destruct (p ++ rest); cbn [search]; by rewrite H.
Qed.

Lemma search_closing (init : list jsstring) (last rest : jsstring) :
  Forall (fun l => (NL ∉ l)
                   /\ forall t, startsWith (lit "---") (l ++ NL :: t) = false)
         (init ++ [last]) ->
  search closing (flat_map (fun l => l ++ [NL]) init ++ last
                  ++ closing ++ rest)
  = Some (length (flat_map (fun l => l ++ [NL]) init ++ last)).
Proof.
  induction init as [|l init IH]; cbn [flat_map app]; intros Hall.
  - apply Forall_singleton in Hall as [Hnl _].
    unfold closing at 1. rewrite search_skip by done.
    fold closing. rewrite search_head. simpl. f_equal. lia.
  - apply Forall_cons in Hall as [[Hnl Hdash] Hall].
    rewrite <- !app_assoc. unfold closing at 1.
    rewrite search_skip by done. cbn [app].
    rewrite search_next_line.
    + fold closing. rewrite IH by done. simpl.
      rewrite !length_app. simpl. rewrite !length_app. by f_equal.
    + destruct init as [|l' init]; cbn [flat_map app].
      * apply Forall_singleton in Hall as [_ Hd]. apply Hd.
      * apply Forall_cons in Hall as [[_ Hd] _].
        rewrite <- !app_assoc. apply Hd.
Qed.

(** *** The lines that [serialize] writes *)

Lemma terminators_NL (v : jsstring) :
  forallb (fun c => negb (isLineTerminator c)) v = true -> NL ∉ v.
Proof.
  rewrite forallb_forall. intros Hv Hin%list_elem_of_In%Hv. done.
Qed.

Lemma serializeLine_no_NL (kv : jsstring * jsstring) :
  plainPair kv -> NL ∉ serializeLine kv.
Proof.
  intros [(_ & _ & Hk & _) (Hv%terminators_NL & _)]. unfold serializeLine.
  rewrite !not_elem_of_app. split; [done|]. split; [|done].
  intros Hin. repeat apply elem_of_cons in Hin as [Hin|Hin]; try done.
  by apply elem_of_nil in Hin.
Qed.

Lemma startsWith_dashes_colon (k t : jsstring) :
  startsWith (lit "---") k = false ->
  startsWith (lit "---") (k ++ (ch ":") :: t) = false.
Proof.
  change (lit "---") with [(ch "-"); (ch "-"); (ch "-")].
  destruct k as [|a [|b [|c k]]]; cbn [startsWith app]; intros H;
    repeat match goal with
           | |- context [N.eqb (ch "-") ?x] =>
             is_var x; destruct (N.eqb (ch "-") x); simpl in *
           end; done.
Qed.

Lemma serializeLine_no_dashes (kv : jsstring * jsstring) (t : jsstring) :
  plainPair kv -> startsWith (lit "---") (serializeLine kv ++ t) = false.
Proof.
  intros [(_ & _ & _ & _ & Hd & _) _]. unfold serializeLine.
  rewrite <- app_assoc. by apply startsWith_dashes_colon.
Qed.

Lemma addProp_written (acc : gmap jsstring jsstring)
    (kv : jsstring * jsstring) :
  plainPair kv -> addProp acc (serializeLine kv) = <[kv.1 := kv.2]> acc.
Proof.
  destruct kv as [k v].
  intros [(Hne & Hcolon & _ & Hk & _ & Hproto) (Hterm & Hv)].
  simpl in *. unfold addProp.
  assert (Hm : matchProp (serializeLine (k, v)) = Some (k, v)).
  { apply matchProp_spec. exists [(ch " ")]. split; [done|].
    split; [done|]. split; [done|]. split; [done|].
    split; [by apply trim_fixed|done]. }
  rewrite Hm, Hk, Hv. unfold assign. by rewrite bool_decide_eq_false_2.
Qed.

Lemma addProp_bare (acc : gmap jsstring jsstring) (k : jsstring) :
  plainKey k -> addProp acc (k ++ [(ch ":")]) = <[k := []]> acc.
Proof.
  intros (Hne & Hcolon & _ & Hk & _ & Hproto). unfold addProp.
  assert (Hm : matchProp (k ++ [(ch ":")]) = Some (k, [])).
  { apply matchProp_spec. exists []. done. }
  rewrite Hm, Hk. unfold assign. by rewrite bool_decide_eq_false_2.
Qed.

Lemma foldl_addProp_written (acc : gmap jsstring jsstring)
    (kvs : list (jsstring * jsstring)) :
  Forall plainPair kvs ->
  foldl addProp acc (serializeLine <$> kvs)
  = foldl (fun m kv => <[kv.1 := kv.2]> m) acc kvs.
Proof.
  revert acc. induction kvs as [|kv kvs IH]; intros acc Hall; [done|].
  apply Forall_cons in Hall as [Hkv Hall]. simpl.
  rewrite addProp_written by done. by apply IH.
Qed.

Lemma foldl_insert_list_to_map (kvs : list (jsstring * jsstring)) :
  NoDup kvs.*1 ->
  foldl (fun m kv => <[kv.1 := kv.2]> m) ∅ kvs
  = (list_to_map kvs : gmap jsstring jsstring).
Proof.
  induction kvs as [|[k v] kvs IH] using rev_ind; intros Hnd; [done|].
  rewrite fmap_app in Hnd. apply NoDup_app in Hnd as (Hnd & Hnot & _).
  rewrite foldl_snoc, IH by done. simpl.
  rewrite list_to_map_snoc; [done|].
  intros Hin. apply (Hnot k Hin). simpl. left.
Qed.

(** The header between the two lines of dashes, trimmed: the lines as
    written, but for the blank after the colon of a last line without
    value. *)
Lemma trim_written (init : list (jsstring * jsstring))
    (k v : jsstring) :
  Forall plainPair (init ++ [(k, v)]) ->
  exists last',
    trim (flat_map (fun l => l ++ [NL]) (serializeLine <$> init)
          ++ serializeLine (k, v))
    = flat_map (fun l => l ++ [NL]) (serializeLine <$> init) ++ last'
    /\ last' <> [] /\ (NL ∉ last')
    /\ forall acc, addProp acc last' = <[k := v]> acc.
Proof.
  intros Hall.
  apply Forall_app in Hall as [Hinit Hlast].
  pose proof (proj1 (Forall_singleton _ _) Hlast) as Hkv.
  pose proof Hkv
    as [(Hne & Hcolon & Hknl & Hk & Hd & Hproto) (Hterm & Hv)].
  cbn [fst snd] in *.
  set (pre := flat_map (fun l => l ++ [NL]) (serializeLine <$> init)).
  assert (Hhead : forall t, headOK (pre ++ k ++ t)).
  { intros t. subst pre. destruct init as [|[k1 v1] init]; simpl.
    - apply headOK_app; [done|]. by apply trim_fixed.
    - apply Forall_cons in Hinit as [[(Hne1 & _ & _ & Hk1 & _) _] _].
      cbn [fst snd] in *. unfold serializeLine.
      cbn [fst snd flat_map fmap list_fmap].
      rewrite <- !app_assoc. apply headOK_app; [done|]. by apply trim_fixed. }
  destruct v as [|c v].
  - exists (k ++ [(ch ":")]).
    split; [|split; [by destruct k|split]].
    + unfold serializeLine. cbn [fst snd].
      change (lit ": " ++ []) with [(ch ":"); (ch " ")].
      replace (pre ++ k ++ [(ch ":"); (ch " ")])
        with ((pre ++ k ++ [(ch ":")]) ++ [(ch " ")])
        by (by rewrite <- !app_assoc).
      apply trim_blank_end.
      * destruct pre; [by destruct k|done].
      * apply Hhead.
      * rewrite !rev_app_distr. done.
    + rewrite not_elem_of_app. split; [done|].
      intros Hin. apply list_elem_of_singleton in Hin. done.
    + intros acc. by apply addProp_bare.
  - exists (serializeLine (k, c :: v)).
    split; [|split; [by destruct k|split]].
    + apply trim_keep.
      * unfold serializeLine. cbn [fst snd]. apply Hhead.
      * unfold serializeLine. cbn [fst snd].
        rewrite !rev_app_distr, <- !app_assoc. apply headOK_app.
        -- intros Hnil. apply (f_equal length) in Hnil.
           rewrite length_rev in Hnil. done.
        -- by apply trim_fixed.
    + by apply serializeLine_no_NL.
    + intros acc. by apply (addProp_written acc (k, c :: v)).
Qed.

Lemma indexOf_after_opening (rest : jsstring) :
  indexOf closing 4 (opening ++ rest)
  = (fun i => 4 + i) <$> search closing rest.
Proof.
  unfold indexOf. cbv zeta.
  replace (4 `min` length (opening ++ rest)) with 4
    by (rewrite length_app; change (length opening) with 4; lia).
  by replace (drop 4 (opening ++ rest)) with rest by reflexivity.
Qed.

(** The lines joined by newlines: every line but the last is followed by a
    newline. *)
Lemma join_snoc (init : list jsstring) (last : jsstring) :
  join [NL] (init ++ [last]) = flat_map (fun l => l ++ [NL]) init ++ last.
Proof.
  induction init as [|l init IH]; [done|].
  cbn [flat_map]. rewrite <- app_assoc, <- IH.
  destruct init; simpl; by rewrite <- app_assoc.
Qed.

Lemma parse_written (kvs : list (jsstring * jsstring)) (body0 : jsstring) :
  Forall plainPair kvs ->
  parseFrontMatter
    ((opening ++ join [NL] (serializeLine <$> kvs) ++ closing ++ [NL])
     ++ body0)
  = mkParsed (foldl (fun m kv => <[kv.1 := kv.2]> m) ∅ kvs) body0.
Proof.
  intros Hall.
  destruct kvs as [|kv0 kvs0 _] using rev_ind.
  { cbn [fmap list_fmap join foldl].
    assert (Hend : indexOf closing 4 (opening ++ [] ++ closing ++ NL :: body0)
                   = Some (4 + length (@nil N))).
    { rewrite indexOf_after_opening. cbn [app].
      by rewrite search_head. }
    replace ((opening ++ [] ++ closing ++ [NL]) ++ body0)
      with (opening ++ [] ++ closing ++ NL :: body0)
      by (by rewrite <- !app_assoc).
    unfold parseFrontMatter. fold opening closing.
    rewrite startsWith_app, Hend, slice_header, drop_header.
    cbn [stripLeadingNL]. by rewrite N.eqb_refl. }
  destruct kv0 as [k v].
  set (pre := flat_map (fun l => l ++ [NL]) (serializeLine <$> kvs0)).
  set (J := pre ++ serializeLine (k, v)).
  assert (Htext :
    (opening ++ join [NL] (serializeLine <$> kvs0 ++ [(k, v)])
     ++ closing ++ [NL]) ++ body0
    = opening ++ J ++ closing ++ NL :: body0).
  { rewrite fmap_app. cbn [fmap list_fmap]. rewrite join_snoc.
    subst J pre. by rewrite <- !app_assoc. }
  rewrite Htext. clear Htext.
  assert (Hlines : Forall
    (fun l => (NL ∉ l)
              /\ forall t, startsWith (lit "---") (l ++ NL :: t) = false)
    ((serializeLine <$> kvs0) ++ [serializeLine (k, v)])).
  { change [serializeLine (k, v)] with (serializeLine <$> [(k, v)]).
    rewrite <- fmap_app. apply Forall_fmap.
    eapply Forall_impl; [exact Hall|]. intros kv Hkv. simpl. split.
    - by apply serializeLine_no_NL.
    - intros t. by apply serializeLine_no_dashes. }
  assert (Hend : indexOf closing 4 (opening ++ J ++ closing ++ NL :: body0)
                 = Some (4 + length J)).
  { rewrite indexOf_after_opening. subst J. rewrite <- app_assoc.
    subst pre. by rewrite (search_closing _ _ _ Hlines). }
  unfold parseFrontMatter. fold opening closing.
  rewrite startsWith_app, Hend, slice_header, drop_header.
  cbn [stripLeadingNL]. rewrite N.eqb_refl. f_equal.
  destruct (trim_written kvs0 k v Hall) as (last' & Htrim & Hne' & Hnl' & Hadd).
  subst J. fold pre in Htrim. rewrite Htrim.
  unfold headerProps. subst pre.
  rewrite splitNL_lines.
  - rewrite !foldl_snoc, Hadd. simpl. f_equal.
    apply foldl_addProp_written.
    by apply Forall_app in Hall as [? _].
  - apply Forall_app. split; [|by apply Forall_singleton].
    apply Forall_fmap. apply Forall_app in Hall as [Hinit _].
    eapply Forall_impl; [exact Hinit|]. intros kv Hkv. simpl. split.
    + unfold serializeLine. destruct Hkv as [(Hk & _) _].
      by destruct (kv.1).
    + by apply serializeLine_no_NL.
Qed.

(** C5, as the code has it, for the serialization modelled above.  For a
    properties mapping whose keys are non-empty, hold no colon and no
    newline, neither start nor end with white space, do not start with
    three dashes and are not [__proto__], and whose values hold no line
    terminator and neither start nor end with white space (the empty value
    included), and for every body: parsing the serialization followed by
    the body gives back the mapping and the body. *)
Theorem parseFrontMatter_serialize
    (properties : gmap jsstring jsstring) (body0 : jsstring) :
  (forall k v, properties !! k = Some v -> plainKey k /\ plainValue v) ->
  parseFrontMatter (serialize properties ++ body0)
  = mkParsed properties body0.
Proof.
  intros Hplain. unfold serialize.
  rewrite parse_written.
  - rewrite foldl_insert_list_to_map by apply NoDup_fst_map_to_list.
    by rewrite list_to_map_to_list.
  - apply Forall_forall. intros [k v] Hin.
    apply elem_of_map_to_list in Hin. by apply Hplain.
Qed.

Lemma plainKey_decide (k : jsstring) :
  (negb (bool_decide (k = []))
   && forallb (fun c => negb (N.eqb c (ch ":"))) k
   && forallb (fun c => negb (N.eqb c NL)) k
   && bool_decide (trim k = k)
   && negb (startsWith (lit "---") k)
   && negb (bool_decide (k = lit "__proto__"))) = true ->
  plainKey k.
Proof.
  rewrite !andb_true_iff, !negb_true_iff, !bool_decide_eq_true,
    !bool_decide_eq_false, !forallb_neq.
  intros [[[[[? ?] ?] ?] ?] ?]. done.
Qed.

Lemma plainValue_decide (v : jsstring) :
  (forallb (fun c => negb (isLineTerminator c)) v
   && bool_decide (trim v = v)) = true ->
  plainValue v.
Proof.
  rewrite !andb_true_iff, !bool_decide_eq_true. intros [? ?]. done.
Qed.

Lemma parseFrontMatter_serialize_witness :
  parseFrontMatter (serialize twoProps ++ lit "Hi [[Bob]]")
  = mkParsed twoProps (lit "Hi [[Bob]]").
Proof.
  apply (parseFrontMatter_serialize twoProps (lit "Hi [[Bob]]")).
  intros k v H. unfold twoProps in H.
  apply lookup_insert_Some in H as [[<- <-]|[_ H]].
  - split; [apply plainKey_decide|apply plainValue_decide];
      vm_compute; reflexivity.
  - apply lookup_singleton_Some in H as [<- <-].
    split; [apply plainKey_decide|apply plainValue_decide];
      vm_compute; reflexivity.
Defined.

(** C5 as stated fails for a value that starts with a blank: the key has no
    newline and no colon, and the value comes back trimmed. *)
Lemma parseFrontMatter_serialize_trims :
  plainKey (lit "k")
  /\ map_to_list blankBeforeValue = [(lit "k", lit " v")]
  /\ parseFrontMatter (serialize blankBeforeValue ++ lit "text")
     = mkParsed {[ lit "k" := lit "v" ]} (lit "text")
  /\ ({[ lit "k" := lit "v" ]} : gmap jsstring jsstring) !! lit "k"
     <> blankBeforeValue !! lit "k".
Proof.
  split; [apply plainKey_decide; vm_compute; reflexivity|].
  split; [vm_compute; reflexivity|].
  split; [vm_compute; reflexivity|].
  vm_compute. discriminate.
Qed.

(** The other restrictions of C5, one text each: a key that ends with a
    blank, a value with a carriage return, a value with a line separator,
    a value with a newline, the empty key, a key that starts with three
    dashes on a later line, and the key [__proto__]. *)
Lemma parseFrontMatter_serialize_limits :
  parseFrontMatter (serialize {[ lit "k " := lit "v" ]} ++ lit "text")
  = mkParsed {[ lit "k" := lit "v" ]} (lit "text")
  /\ parseFrontMatter
       (serialize {[ lit "k" := lit "a" ++ CR :: lit "b" ]} ++ lit "text")
     = mkParsed ∅ (lit "text")
  /\ parseFrontMatter
       (serialize {[ lit "k" := lit "a" ++ LS :: lit "b" ]} ++ lit "text")
     = mkParsed ∅ (lit "text")
  /\ parseFrontMatter
       (serialize {[ lit "k" := lit "a" ++ NL :: lit "b" ]} ++ lit "text")
     = mkParsed {[ lit "k" := lit "a" ]} (lit "text")
  /\ parseFrontMatter (serialize {[ [] := lit "v" ]} ++ lit "text")
     = mkParsed ∅ (lit "text")
  /\ parseFrontMatter (serialize dashesInSecondKey ++ lit "text")
     = mkParsed {[ lit "z" := lit "1" ]}
                (lit "b: 2" ++ NL :: lit "---" ++ NL :: lit "text")
  /\ parseFrontMatter
       (serialize {[ lit "__proto__" := lit "x" ]} ++ lit "text")
     = mkParsed ∅ (lit "text").
Proof. repeat split; vm_compute; reflexivity. Qed.

(** ** Creating, opening and editing notes *)

Lemma App_eta (st : App) :
  mkApp (mkData (notes (data st)) (trash (data st))) (current st) = st.
Proof. by destruct st as [[? ?] ?]. Qed.

Lemma isSet_false_own {A} (obj : gmap jsstring A) (k : jsstring) (a : A) :
  isSet obj k = false -> obj !! k = Some a -> False.
Proof.
  unfold isSet. intros [E _]%orb_false_iff Hk.
  apply bool_decide_eq_false in E. apply E. by exists a.
Qed.

(** X5.  Whatever the answer of the prompt, [createNote] returns or alerts
    that the title exists; it keeps the trash and the record of every note,
    and a note it leaves that was not there is the empty note, stamped with
    the time of the call, under the answer of the prompt, which is not
    empty, was not set in [data.notes] and is now the current title. *)
Theorem createNote_adds_only (prompted : option jsstring) (now : Z)
    (st : App) :
  exists st',
    (createNote prompted now st = Ret st'
     \/ createNote prompted now st
        = Alerted (lit "A note with that title exists.") st')
    /\ trash (data st') = trash (data st)
    /\ (forall k r, notes (data st) !! k = Some r ->
                    notes (data st') !! k = Some r)
    /\ (forall k r, notes (data st') !! k = Some r ->
          notes (data st) !! k = Some r
          \/ (prompted = Some k /\ k <> [] /\ r = mkNote [] now
              /\ current st' = k /\ isSet (notes (data st)) k = false)).
Proof.
  unfold createNote. destruct prompted as [[|c t]|].
  - exists st. split; [by left|]. split; [done|]. split; [done|]. by left.
  - destruct (isSet (notes (data st)) (c :: t)) eqn:E.
    + exists st. split; [by right|]. split; [done|]. split; [done|]. by left.
    + eexists. split; [by left|]. simpl. split; [done|]. split.
      * intros k r Hk. rewrite lookup_insert_ne; [done|].
        intros <-. by eapply isSet_false_own.
      * intros k r. destruct (decide (c :: t = k)) as [<-|Hne].
        -- rewrite lookup_insert_eq. intros [= <-]. right. done.
        -- rewrite lookup_insert_ne by done. by left.
  - exists st. split; [by left|]. split; [done|]. split; [done|]. by left.
Qed.

(** X6.  After [setContent(v)] the current title holds the record
    [{content: v, updated: now}], whether or not it was a note before; the
    other titles, the trash and the selection are as they were; and a second
    [setContent] leaves the state that it would have left by itself. *)
Theorem setContent_last_write (v w : jsstring) (now later : Z) (st : App) :
  notes (data (setContent v now st)) !! current st = Some (mkNote v now)
  /\ (forall k, k <> current st ->
        notes (data (setContent v now st)) !! k = notes (data st) !! k)
  /\ trash (data (setContent v now st)) = trash (data st)
  /\ current (setContent v now st) = current st
  /\ setContent w later (setContent v now st) = setContent w later st.
Proof.
  unfold setContent, setData. simpl.
  split; [apply lookup_insert_eq|].
  split; [intros k Hk; by apply lookup_insert_ne|].
  split; [done|]. split; [done|].
  by rewrite insert_insert_eq.
Qed.

(** X7.  The click handler of the preview selects the title of the link,
    keeps the trash and the record of every note, and a second click on the
    same link changes nothing: the note it has created keeps the time of the
    first click. *)
Theorem handler_idempotent (t : jsstring) (now later : Z) (st : App) :
  handler t later (handler t now st) = handler t now st
  /\ current (handler t now st) = t
  /\ trash (data (handler t now st)) = trash (data st)
  /\ (forall k r, notes (data st) !! k = Some r ->
                  notes (data (handler t now st)) !! k = Some r).
Proof.
  unfold handler. destruct (isSet (notes (data st)) t) eqn:E.
  - cbn [setCurrent data current]. rewrite E. done.
  - cbn [setCurrent setData data current notes trash].
    rewrite (isSet_own (<[t := mkNote [] now]> (notes (data st))) t)
      by (rewrite lookup_insert_eq; by eexists).
    split; [done|]. split; [done|]. split; [done|].
    intros k r Hk. rewrite lookup_insert_ne; [done|].
    intros <-. by eapply isSet_false_own.
Qed.

(** ** From the trash and back *)

(** X8.  Moving the note [t] to the trash and restoring the entry at the
    head of the trash gives back the notes and the trash that were there,
    but for the record of [t]: it has the content it had and the time of
    the restore; [t] is the current title.  [t] is a note and names no
    member of [Object.prototype]. *)
Theorem softDelete_restore_round_trip
    (ownKeys : gmap jsstring Note -> list jsstring)
    (now later : Z) (t : jsstring) (r : Note) (st : App) :
  notes (data st) !! t = Some r -> inherited t = false ->
  restoreTrash later 0 (softDeleteNote ownKeys true now t st)
  = Some (mkApp (mkData (<[t := mkNote (content r) later]> (notes (data st)))
                        (trash (data st)))
                t).
Proof.
  intros Ht Hin. unfold softDeleteNote. simpl.
  assert (Hfree : isSet (delete t (notes (data st))) t = false)
    by (apply isSet_free; [apply lookup_delete_eq|done]).
  case_bool_decide; unfold restoreTrash; simpl; rewrite Hfree, Ht; simpl;
    unfold setCurrent, setData; simpl;
    by rewrite insert_delete_eq, without_take_drop.
Qed.

Lemma softDelete_restore_round_trip_witness :
  restoreTrash 9 0 (softDeleteNote keysOf true 7 (lit "Home") twoNotes)
  = Some (mkApp (mkData (<[lit "Home" := mkNote (lit "Welcome") 9]>
                           (notes (data twoNotes)))
                        (trash (data twoNotes)))
                (lit "Home")).
Proof.
  apply (softDelete_restore_round_trip keysOf 7 9 (lit "Home")
           (mkNote (lit "Welcome") 1) twoNotes).
  - vm_compute. reflexivity.
  - vm_compute. reflexivity.
Defined.

(** X9.  For an index past the end of the trash [restoreTrash] throws, the
    state staying as it is, and a confirmed [deleteForever] changes
    nothing. *)
Theorem trash_index_out_of_range (now : Z) (idx : nat) (st : App) :
  length (trash (data st)) <= idx ->
  restoreTrash now idx st = None /\ deleteForever true idx st = st.
Proof.
  intros Hlen. split.
  - unfold restoreTrash. by rewrite lookup_ge_None_2.
  - unfold deleteForever, setData. simpl.
    rewrite without_take_drop, take_ge, drop_ge, app_nil_r by lia.
    apply App_eta.
Qed.

Lemma trash_index_out_of_range_witness :
  restoreTrash 9 0 homeOnly = None /\ deleteForever true 0 homeOnly = homeOnly.
Proof. apply (trash_index_out_of_range 9 0 homeOnly). simpl. lia. Defined.

(** ** The toolbar of the editor *)

Lemma lastIndexFrom_hit (p s : jsstring) (k : nat) :
  startsWith p (drop k s) = true -> lastIndexFrom p s k = Some k.
Proof. intros H. destruct k; simpl in *; by rewrite H. Qed.

Lemma lastIndexFrom_skip (p s : jsstring) (k i : nat) :
  k <= i ->
  (forall j, k < j <= i -> startsWith p (drop j s) = false) ->
  lastIndexFrom p s i = lastIndexFrom p s k.
Proof.
  intros Hle Hno. induction i as [|i IH].
  - by replace k with 0 by lia.
  - destruct (decide (k = S i)) as [->|Hne]; [done|].
    cbn [lastIndexFrom]. rewrite Hno by lia. apply IH; [lia|].
    intros j Hj. apply Hno. lia.
Qed.

Lemma lastIndexFrom_none (p s : jsstring) (i : nat) :
  (forall j, j <= i -> startsWith p (drop j s) = false) ->
  lastIndexFrom p s i = None.
Proof.
  intros Hno. induction i as [|i IH].
  - cbn [lastIndexFrom]. by rewrite Hno.
  - cbn [lastIndexFrom]. rewrite Hno by lia. apply IH.
    intros j Hj. apply Hno. lia.
Qed.

Lemma startsWith_NL_inside (line after : jsstring) (j : nat) :
  NL ∉ line -> j < length line ->
  startsWith [NL] (drop j (line ++ after)) = false.
Proof.
  intros Hnl Hj. rewrite drop_app_le by lia.
  destruct (drop j line) as [|c rest] eqn:E.
  - apply (f_equal length) in E. rewrite length_drop in E. simpl in E. lia.
  - assert (Hc : c ∈ line).
    { rewrite <- (take_drop j line), E. apply elem_of_app. right. left. }
    cbn [app startsWith].
    rewrite (proj2 (N.eqb_neq NL c)); [done|]. intros <-. done.
Qed.

Lemma lastIndexOf_absent (position : Z) (s : jsstring) :
  NL ∉ s -> lastIndexOf [NL] position s = (-1)%Z.
Proof.
  intros Hnl. unfold lastIndexOf. rewrite lastIndexFrom_none; [done|].
  intros j _. destruct (drop j s) as [|c rest] eqn:E; [done|].
  assert (Hc : c ∈ s).
  { rewrite <- (take_drop j s), E. apply elem_of_app. right. left. }
  cbn [startsWith]. rewrite (proj2 (N.eqb_neq NL c)); [done|].
  by intros <-.
Qed.

(** The offset at which [heading] puts the prefix, for a caret in [line]:
    the offset of [line]. *)
Lemma lineStart_spec (before line after : jsstring) (start : nat) :
  (before = [] \/ exists b, before = b ++ [NL]) ->
  NL ∉ line ->
  length before <= start <= length before + length line ->
  (start = 0 -> startsWith [NL] (line ++ after) = false) ->
  Z.to_nat (lastIndexOf [NL] (Z.of_nat start - 1) (before ++ line ++ after)
            + 1) = length before.
Proof.
  intros Hbefore Hnl Hstart Hzero. unfold lastIndexOf.
  set (val := before ++ line ++ after).
  assert (Hlen : length val = length before + length line + length after)
    by (unfold val; rewrite !length_app; lia).
  assert (Hline : forall j, length before <= j < length before + length line ->
            startsWith [NL] (drop j val) = false).
  { intros j Hj. unfold val.
    replace j with (length before + (j - length before)) by lia.
    rewrite <- drop_drop, drop_app_length.
    apply startsWith_NL_inside; [done|lia]. }
  destruct start as [|start].
  - assert (before = []) as -> by (destruct before; [done|simpl in *; lia]).
    assert (Hs : Z.to_nat (Z.max 0 (Z.min (Z.of_nat 0 - 1)
                                      (Z.of_nat (length val)))) = 0%nat)
      by lia.
    rewrite Hs.
    cbn [lastIndexFrom]. rewrite drop_0. subst val. cbn [app].
    by rewrite Hzero.
  - assert (Hs : Z.to_nat (Z.max 0 (Z.min (Z.of_nat (S start) - 1)
                                      (Z.of_nat (length val)))) = start)
      by lia.
    rewrite Hs.
    destruct Hbefore as [->|[b ->]].
    + rewrite lastIndexFrom_none; [done|].
      intros j Hj. apply Hline. simpl in *. lia.
    + rewrite length_app in *. simpl in *.
      rewrite (lastIndexFrom_skip [NL] val (length b) start).
      * rewrite lastIndexFrom_hit; [lia|].
        unfold val. rewrite <- !app_assoc, drop_app_length.
        cbn [app startsWith]. by rewrite N.eqb_refl.
      * lia.
      * intros j Hj. apply Hline. lia.
Qed.

(** X10.  [heading(level)] writes the hashes and the blank in front of the
    line that holds the caret and moves the caret behind them by their
    number, the text before and behind the line staying as it is.  [line]
    is a piece without newline of the content, at the start of the content
    or behind a newline, that holds the caret; a caret at offset 0 stands
    in front of a content that does not start with a newline. *)
Theorem heading_line_start (level start : nat) (now : Z)
    (before line after : jsstring) (st : App) :
  currentContent st = Some (before ++ line ++ after) ->
  (before = [] \/ exists b, before = b ++ [NL]) ->
  NL ∉ line ->
  length before <= start <= length before + length line ->
  (start = 0 -> startsWith [NL] (line ++ after) = false) ->
  Toolbar.heading level start now st
  = Some (setContent (before ++ Toolbar.prefix level ++ line ++ after) now st,
          start + S level).
Proof.
  intros Hval Hbefore Hnl Hstart Hzero. unfold Toolbar.heading.
  rewrite Hval. unfold Toolbar.headingText. cbv zeta.
  rewrite lineStart_spec by done. cbn [fst snd].
  rewrite take_app_length, drop_app_length.
  unfold Toolbar.prefix. rewrite length_app, length_replicate. simpl.
  do 3 f_equal. lia.
Qed.

Lemma heading_line_start_witness :
  Toolbar.heading 2 4 9 twoLines
  = Some (setContent ((lit "ab" ++ [NL]) ++ Toolbar.prefix 2 ++ lit "cd" ++ [])
            9 twoLines,
          4 + 3).
Proof.
  apply (heading_line_start 2 4 9 (lit "ab" ++ [NL]) (lit "cd") [] twoLines).
  - vm_compute. reflexivity.
  - right. by exists (lit "ab").
  - apply (proj1 (forallb_neq NL (lit "cd"))). reflexivity.
  - simpl. lia.
  - discriminate.
Defined.

(** X11.  With the caret at offset 0 of a content that starts with a
    newline, [heading(level)] writes the hashes and the blank behind that
    newline, in front of the second line. *)
Theorem heading_leading_newline (level : nat) (now : Z) (rest : jsstring)
    (st : App) :
  currentContent st = Some (NL :: rest) ->
  Toolbar.heading level 0 now st
  = Some (setContent (NL :: Toolbar.prefix level ++ rest) now st, S level).
Proof.
  intros Hval. unfold Toolbar.heading. rewrite Hval.
  unfold Toolbar.headingText, lastIndexOf. cbv zeta.
  assert (Hs : Z.to_nat (Z.max 0 (Z.min (Z.of_nat 0 - 1)
                                    (Z.of_nat (length (NL :: rest))))) = 0%nat)
    by lia.
  rewrite Hs.
  cbn [lastIndexFrom drop startsWith]. rewrite N.eqb_refl. simpl.
  unfold Toolbar.prefix. rewrite length_app, length_replicate. simpl.
  do 3 f_equal. lia.
Qed.

Lemma heading_leading_newline_witness :
  Toolbar.heading 1 0 9 emptyFirstLine
  = Some (setContent (NL :: Toolbar.prefix 1 ++ lit "cd") 9 emptyFirstLine,
          2).
Proof.
  apply (heading_leading_newline 1 9 (lit "cd") emptyFirstLine).
  vm_compute. reflexivity.
Defined.

(** X12.  [wrapSelection(before, after)] puts [before] and [after] around
    the selected text, or around the word text when the selection is
    empty, keeps the content in front of and behind the selection, and
    selects what it has wrapped. *)
Theorem wrapSelection_selects_wrapped (before after : jsstring)
    (start end_ : nat) (now : Z) (val : jsstring) (st : App) :
  currentContent st = Some val ->
  start <= end_ <= length val ->
  exists sel,
    sel = (if decide (start = end_) then lit "text"
           else slice start end_ val)
    /\ let next := take start val ++ before ++ sel ++ after
                   ++ drop end_ val in
       let from := start + length before in
       Toolbar.wrapSelection before after start end_ now st
       = Some (setContent next now st, (from, from + length sel))
       /\ slice from (from + length sel) next = sel.
Proof.
  intros Hval Hrange. unfold Toolbar.wrapSelection, Toolbar.wrapText.
  rewrite Hval. cbv zeta. cbn [fst snd].
  assert (Hsel : match slice start end_ val with
                 | [] => lit "text"
                 | c :: s => c :: s
                 end
                 = if decide (start = end_) then lit "text"
                   else slice start end_ val).
  { destruct (decide (start = end_)) as [->|Hne].
    - unfold slice. by rewrite Nat.sub_diag, take_0.
    - destruct (slice start end_ val) as [|c s] eqn:E; [|done].
      apply (f_equal length) in E. unfold slice in E.
      rewrite length_take, length_drop in E. simpl in E. lia. }
  rewrite Hsel. eexists. split; [reflexivity|]. split; [done|].
  set (sel := if decide (start = end_) then lit "text"
              else slice start end_ val).
  unfold slice.
  replace (start + length before + length sel - (start + length before))
    with (length sel) by lia.
  rewrite app_assoc.
  replace (start + length before)
    with (length (take start val ++ before))
    by (rewrite length_app, length_take; lia).
  by rewrite drop_app_length, take_app_length.
Qed.

Lemma wrapSelection_selects_wrapped_witness :
  exists sel,
    sel = (if decide (4 = 9) then lit "text"
           else slice 4 9 (lit "say hello now"))
    /\ let next := take 4 (lit "say hello now") ++ lit "**" ++ sel ++ lit "**"
                   ++ drop 9 (lit "say hello now") in
       let from := 4 + length (lit "**") in
       Toolbar.wrapSelection (lit "**") (lit "**") 4 9 7 sayHello
       = Some (setContent next 7 sayHello, (from, from + length sel))
       /\ slice from (from + length sel) next = sel.
Proof.
  apply (wrapSelection_selects_wrapped (lit "**") (lit "**") 4 9 7
           (lit "say hello now") sayHello).
  - vm_compute. reflexivity.
  - simpl. lia.
Defined.

(** *** What the preview makes of the text the toolbar writes *)

Lemma plainText_spec (s : jsstring) (c : N) :
  plainText s -> c ∈ markupChars -> c ∉ s.
Proof.
  unfold plainText. intros Hs Hc Hin.
  rewrite forallb_forall in Hs. apply list_elem_of_In in Hin.
  apply Hs in Hin. apply negb_true_iff, bool_decide_eq_false in Hin. done.
Qed.

Lemma plainText_absent (s : jsstring) :
  plainText s ->
  ((ch "&") ∉ s) /\ ((ch "<") ∉ s) /\ ((ch ">") ∉ s) /\ ((ch "*") ∉ s)
  /\ ((ch "_") ∉ s) /\ ((ch "[") ∉ s) /\ (NL ∉ s).
Proof.
  intros H.
  repeat split; apply (plainText_spec s _ H);
    apply list_elem_of_In; simpl; tauto.
Qed.

Lemma replaceSpan_absent (h : N) (o : jsstring) (x : N)
    (c : jsstring) (mk : jsstring -> jsstring) (s : jsstring) :
  h ∉ s -> replaceSpan (h :: o) x c mk 0 s = s.
Proof.
  induction s as [|a s IH]; [done|]. intros Hh.
  apply not_elem_of_cons in Hh as [Ha Hs].
  cbn [replaceSpan]. unfold matchSpan. cbn [startsWith].
  rewrite (proj2 (N.eqb_neq h a)) by done. cbn [andb].
  by rewrite IH.
Qed.

Lemma replaceSpan_prefix (h : N) (o : jsstring) (x : N)
    (c : jsstring) (mk : jsstring -> jsstring) (pre s : jsstring) :
  h ∉ pre ->
  replaceSpan (h :: o) x c mk 0 (pre ++ s)
  = pre ++ replaceSpan (h :: o) x c mk 0 s.
Proof.
  induction pre as [|a pre IH]; [done|]. intros Hh.
  apply not_elem_of_cons in Hh as [Ha Hs].
  cbn [app replaceSpan]. unfold matchSpan. cbn [startsWith].
  rewrite (proj2 (N.eqb_neq h a)) by done. cbn [andb].
  by rewrite IH.
Qed.

(** An opening character that opens nothing is left in place. *)
Lemma replaceSpan_lone (h : N) (o : jsstring) (x : N)
    (c : jsstring) (mk : jsstring -> jsstring) (s : jsstring) :
  startsWith (h :: o) (h :: s) = false ->
  replaceSpan (h :: o) x c mk 0 (h :: s)
  = h :: replaceSpan (h :: o) x c mk 0 s.
Proof.
  intros H. cbn [replaceSpan]. unfold matchSpan. by rewrite H.
Qed.

Lemma span_absent (o : jsstring) (x : N) (c : jsstring)
    (mk : jsstring -> jsstring) (h : N) (s : jsstring) :
  head o = Some h -> h ∉ s -> replaceSpan o x c mk 0 s = s.
Proof.
  destruct o as [|h' o]; [done|]. intros [= ->]. apply replaceSpan_absent.
Qed.

(** One token between texts that do not hold the first character of the
    opening. *)
Lemma span_token (o : jsstring) (x : N) (c' : jsstring)
    (mk : jsstring -> jsstring) (h : N) (pre g post : jsstring) :
  head o = Some h -> h ∉ pre -> h ∉ post -> g <> [] -> x ∉ g ->
  replaceSpan o x (x :: c') mk 0 (pre ++ o ++ g ++ (x :: c') ++ post)
  = pre ++ mk g ++ post.
Proof.
  destruct o as [|h' o]; [done|]. intros [= ->] Hpre Hpost Hne Hx.
  rewrite replaceSpan_prefix by done.
  rewrite (replaceSpan_token (h :: o) x c' mk g post) by done.
  by rewrite replaceSpan_absent.
Qed.

(** Between single stars there is nothing for the pattern of bold text. *)
Lemma bold_single_stars (pre sel post : jsstring) :
  (ch "*") ∉ pre -> (ch "*") ∉ sel -> (ch "*") ∉ post -> sel <> [] ->
  bold (pre ++ lit "*" ++ sel ++ lit "*" ++ post)
  = pre ++ lit "*" ++ sel ++ lit "*" ++ post.
Proof.
  intros Ps Ss Qs Hne. unfold bold.
  change (lit "**") with [(ch "*"); (ch "*")].
  change (lit "*") with [(ch "*")]. cbn [app].
  rewrite replaceSpan_prefix by done.
  rewrite replaceSpan_lone.
  2:{ destruct sel as [|c sel]; [done|]. cbn [app startsWith].
      apply not_elem_of_cons in Ss as [Hc _].
      rewrite N.eqb_refl.
      by rewrite (proj2 (N.eqb_neq (ch "*") c)) by congruence. }
  rewrite replaceSpan_prefix by done.
  rewrite replaceSpan_lone.
  2:{ destruct post as [|c post]; [done|]. cbn [startsWith].
      apply not_elem_of_cons in Qs as [Hc _].
      rewrite N.eqb_refl.
      by rewrite (proj2 (N.eqb_neq (ch "*") c)) by congruence. }
  by rewrite replaceSpan_absent.
Qed.

Lemma esc_plain (s : jsstring) :
  (ch "&") ∉ s -> (ch "<") ∉ s -> (ch ">") ∉ s -> esc s = s.
Proof.
  induction s as [|c s IH]; [done|]. intros Ha Hl Hg.
  apply not_elem_of_cons in Ha as [Ha Ha'].
  apply not_elem_of_cons in Hl as [Hl Hl'].
  apply not_elem_of_cons in Hg as [Hg Hg'].
  unfold esc. cbn [flat_map]. fold (esc s). rewrite IH by done.
  unfold escChar.
  rewrite (proj2 (N.eqb_neq c (ch "&"))) by congruence.
  rewrite (proj2 (N.eqb_neq c (ch "<"))) by congruence.
  rewrite (proj2 (N.eqb_neq c (ch ">"))) by congruence.
  done.
Qed.

Lemma splitLines_plain (s : jsstring) : NL ∉ s -> splitLines s = [s].
Proof.
  induction s as [|c s IH]; [done|]. intros Hnl.
  apply not_elem_of_cons in Hnl as [Hc Hs]. cbn [splitLines].
  rewrite (proj2 (N.eqb_neq c NL)) by congruence.
  assert (Hn : startsWith [NL] s = false).
  { destruct s as [|d s]; [done|]. cbn [startsWith].
    apply not_elem_of_cons in Hs as [Hd _].
    by rewrite (proj2 (N.eqb_neq NL d)) by congruence. }
  rewrite Hn, andb_false_r. by rewrite IH.
Qed.

Lemma heading_no_hash (m line : jsstring) :
  startsWith (lit "#") line = false ->
  heading ((ch "#") :: m) line = None.
Proof.
  intros H. unfold heading. destruct line as [|c line]; [done|].
  cbn [startsWith] in *. apply andb_false_iff in H as [H|H]; [|done].
  by rewrite H.
Qed.

Lemma wrapText_selection (m pre sel post : jsstring) :
  sel <> [] ->
  (Toolbar.wrapText m m (length pre) (length pre + length sel)
     (pre ++ sel ++ post)).1
  = pre ++ m ++ sel ++ m ++ post.
Proof.
  intros Hne. unfold Toolbar.wrapText, slice. cbv zeta. cbn [fst].
  rewrite take_app_length, drop_app_length.
  replace (length pre + length sel - length pre) with (length sel) by lia.
  rewrite take_app_length.
  replace (length pre + length sel) with (length (pre ++ sel))
    by (rewrite length_app; lia).
  rewrite (app_assoc pre sel post), drop_app_length.
  by destruct sel.
Qed.

Ltac absent :=
  unfold tag;
  repeat (apply not_elem_of_app; split);
  try done; try (apply forallb_neq; reflexivity).

(** A one-line text that does not start with a hash is a paragraph. *)
Lemma paragraph_of (line t : jsstring) :
  startsWith (lit "#") line = false -> NL ∉ line -> t <> [] ->
  wikilinks (underline (italic (bold (esc line)))) = t ->
  renderMarkdown line = tag "p" t.
Proof.
  intros Hhash Hnl Hne Ht. unfold renderMarkdown.
  rewrite splitLines_plain by done. cbn [fmap list_fmap join].
  rewrite renderLine_paragraph by (by apply (heading_no_hash _ line)).
  rewrite Ht. by destruct t.
Qed.

Lemma startsWith_hash_app (pre m rest : jsstring) :
  startsWith (lit "#") pre = false -> startsWith (lit "#") m = false ->
  m <> [] ->
  startsWith (lit "#") (pre ++ m ++ rest) = false.
Proof.
  intros Hpre Hm Hne. destruct pre as [|c pre]; [|exact Hpre].
  destruct m as [|d m]; [done|exact Hm].
Qed.

(** X13.  The buttons B, I and U and the preview agree on plain text: for a
    one-line content [pre sel post] without markup characters that does not
    start with a hash, wrapping the non-empty selection [sel] in two stars,
    one star or two underscores gives a content that [renderMarkdown] shows
    as one paragraph with [sel] inside [strong], [em] or [u] and the rest
    as it is. *)
Theorem wrapSelection_renders (pre sel post : jsstring) :
  plainText pre -> plainText sel -> plainText post -> sel <> [] ->
  startsWith (lit "#") pre = false ->
  let wrapped m :=
    (Toolbar.wrapText m m (length pre) (length pre + length sel)
       (pre ++ sel ++ post)).1 in
  renderMarkdown (wrapped (lit "**"))
  = tag "p" (pre ++ tag "strong" sel ++ post)
  /\ renderMarkdown (wrapped (lit "*"))
     = tag "p" (pre ++ tag "em" sel ++ post)
  /\ renderMarkdown (wrapped (lit "__"))
     = tag "p" (pre ++ tag "u" sel ++ post).
Proof.
  intros Hpre Hsel Hpost Hne Hhash wrapped. subst wrapped. cbv beta.
  rewrite !wrapText_selection by done.
  destruct (plainText_absent pre Hpre) as (Pa & Pl & Pg & Ps & Pu & Pb & Pn).
  destruct (plainText_absent sel Hsel) as (Sa & Sl & Sg & Ss & Su & Sb & Sn).
  destruct (plainText_absent post Hpost)
    as (Qa & Ql & Qg & Qs & Qu & Qb & Qn).
  assert (Hopen : forall t rest, pre ++ tag t sel ++ rest <> []).
  { intros t rest. destruct pre; [|done]. unfold tag. done. }
  split; [|split].
  - apply paragraph_of; [by apply startsWith_hash_app| absent | apply Hopen |].
    rewrite esc_plain by absent.
    unfold bold.
    rewrite (span_token (lit "**") (ch "*") [(ch "*")] _ (ch "*") pre sel post)
      by done.
    unfold italic. rewrite (span_absent (lit "*") _ _ _ (ch "*")) by absent.
    unfold underline. rewrite (span_absent (lit "__") _ _ _ (ch "_")) by absent.
    unfold wikilinks. by rewrite (span_absent (lit "[[") _ _ _ (ch "[")) by absent.
  - apply paragraph_of; [by apply startsWith_hash_app| absent | apply Hopen |].
    rewrite esc_plain by absent.
    rewrite bold_single_stars by done.
    unfold italic.
    rewrite (span_token (lit "*") (ch "*") [] _ (ch "*") pre sel post) by done.
    unfold underline. rewrite (span_absent (lit "__") _ _ _ (ch "_")) by absent.
    unfold wikilinks. by rewrite (span_absent (lit "[[") _ _ _ (ch "[")) by absent.
  - apply paragraph_of; [by apply startsWith_hash_app| absent | apply Hopen |].
    rewrite esc_plain by absent.
    unfold bold. rewrite (span_absent (lit "**") _ _ _ (ch "*")) by absent.
    unfold italic. rewrite (span_absent (lit "*") _ _ _ (ch "*")) by absent.
    unfold underline.
    rewrite (span_token (lit "__") (ch "_") [(ch "_")] _ (ch "_") pre sel post)
      by done.
    unfold wikilinks. by rewrite (span_absent (lit "[[") _ _ _ (ch "[")) by absent.
Qed.

Lemma wrapSelection_renders_witness :
  let wrapped m :=
    (Toolbar.wrapText m m (length (lit "say "))
       (length (lit "say ") + length (lit "hello"))
       (lit "say " ++ lit "hello" ++ lit " now")).1 in
  renderMarkdown (wrapped (lit "**"))
  = tag "p" (lit "say " ++ tag "strong" (lit "hello") ++ lit " now")
  /\ renderMarkdown (wrapped (lit "*"))
     = tag "p" (lit "say " ++ tag "em" (lit "hello") ++ lit " now")
  /\ renderMarkdown (wrapped (lit "__"))
     = tag "p" (lit "say " ++ tag "u" (lit "hello") ++ lit " now").
Proof.
  apply (wrapSelection_renders (lit "say ") (lit "hello") (lit " now"));
    try reflexivity.
  discriminate.
Defined.

(** X14.  In a note of one line the buttons H1, H2 and H3 make a heading of
    their level, wherever the caret is: the preview shows the line, less
    the white space it starts with, as [h1], [h2] or [h3]. *)
Theorem heading_button_renders (start : nat) (line : jsstring) :
  NL ∉ line ->
  let titled level :=
    renderMarkdown (Toolbar.headingText level start line).1 in
  titled 1 = tag "h1" (esc (dropWhile isSpace line))
  /\ titled 2 = tag "h2" (esc (dropWhile isSpace line))
  /\ titled 3 = tag "h3" (esc (dropWhile isSpace line)).
Proof.
  intros Hnl titled. subst titled. cbv beta.
  unfold Toolbar.headingText. cbv zeta. cbn [fst].
  rewrite lastIndexOf_absent by done. simpl Z.to_nat.
  rewrite take_0, drop_0. cbn [app].
  assert (Hline : forall level,
            NL ∉ Toolbar.prefix level ++ line).
  { intros level. apply not_elem_of_app. split; [|done].
    unfold Toolbar.prefix. apply not_elem_of_app. split.
    - intros Hin. apply elem_of_replicate in Hin as [Hin _]. done.
    - apply forallb_neq. reflexivity. }
  unfold renderMarkdown. rewrite !splitLines_plain by apply Hline.
  cbn [fmap list_fmap join]. done.
Qed.

Lemma heading_button_renders_witness :
  let titled level :=
    renderMarkdown (Toolbar.headingText level 3 (lit " My day")).1 in
  titled 1 = tag "h1" (esc (dropWhile isSpace (lit " My day")))
  /\ titled 2 = tag "h2" (esc (dropWhile isSpace (lit " My day")))
  /\ titled 3 = tag "h3" (esc (dropWhile isSpace (lit " My day"))).
Proof.
  apply (heading_button_renders 3 (lit " My day")).
  apply (proj1 (forallb_neq NL (lit " My day"))). reflexivity.
Defined.

(** ** The renderer, line by line *)

(** X15.  What [esc] returns holds neither of the two angle brackets. *)
Theorem esc_no_angle (s : jsstring) :
  ((ch "<") ∉ esc s) /\ ((ch ">") ∉ esc s).
Proof.
  induction s as [|c s [IHl IHg]].
  - split; apply not_elem_of_nil.
  - unfold esc in *. cbn [flat_map].
    rewrite !not_elem_of_app. unfold escChar.
    destruct (N.eqb_spec c (ch "&")) as [->|Ha].
    { repeat split; try done; apply forallb_neq; reflexivity. }
    destruct (N.eqb_spec c (ch "<")) as [->|Hl].
    { repeat split; try done; apply forallb_neq; reflexivity. }
    destruct (N.eqb_spec c (ch ">")) as [->|Hg].
    { repeat split; try done; apply forallb_neq; reflexivity. }
    repeat split; try done; apply not_elem_of_cons;
      (split; [congruence|apply not_elem_of_nil]).
Qed.

Lemma splitLines_nonempty (s : jsstring) : splitLines s <> [].
Proof.
  induction s as [|c s IH]; [done|]. cbn [splitLines].
  destruct (N.eqb c NL); [done|].
  destruct (N.eqb c CR && startsWith [NL] s); [done|].
  by destruct (splitLines s).
Qed.

Lemma splitLines_CRNL (a b : jsstring) :
  splitLines (a ++ CR :: NL :: b) = splitLines a ++ splitLines b.
Proof.
  induction a as [|c a IH].
  - cbn [app splitLines startsWith]. by rewrite N.eqb_refl.
  - cbn [app splitLines]. destruct (N.eqb c NL); [by rewrite IH|].
    assert (Hs : N.eqb c CR && startsWith [NL] (a ++ CR :: NL :: b)
                 = N.eqb c CR && startsWith [NL] a).
    { destruct a as [|d a]; [|done]. cbn [app].
      by replace (startsWith [NL] (CR :: NL :: b)) with false
        by reflexivity. }
    rewrite Hs. destruct (N.eqb c CR && startsWith [NL] a); [done|].
    rewrite IH. pose proof (splitLines_nonempty a).
    by destruct (splitLines a).
Qed.

Lemma splitLines_NL (a b : jsstring) :
  last a <> Some CR ->
  splitLines (a ++ NL :: b) = splitLines a ++ splitLines b.
Proof.
  induction a as [|c a IH]; intros Hlast.
  - cbn [app splitLines]. by rewrite N.eqb_refl.
  - assert (Hlast' : last a <> Some CR).
    { destruct a as [|d a]; [done|]. exact Hlast. }
    cbn [app splitLines]. destruct (N.eqb c NL); [by rewrite IH|].
    assert (Hs : N.eqb c CR && startsWith [NL] (a ++ NL :: b)
                 = N.eqb c CR && startsWith [NL] a).
    { destruct a as [|d a]; [|done]. cbn [app startsWith].
      rewrite N.eqb_refl, andb_false_r.
      destruct (N.eqb_spec c CR) as [->|]; [|done]. done. }
    rewrite Hs. destruct (N.eqb c CR && startsWith [NL] a); [by apply IH|].
    rewrite IH by done. pose proof (splitLines_nonempty a).
    by destruct (splitLines a).
Qed.

Lemma join_app (sep : jsstring) (l1 l2 : list jsstring) :
  l1 <> [] -> l2 <> [] ->
  join sep (l1 ++ l2) = join sep l1 ++ sep ++ join sep l2.
Proof.
  intros H1 H2. induction l1 as [|x l1 IH]; [done|].
  destruct l1 as [|y l1].
  - cbn [app join]. by destruct l2.
  - cbn [app join] in *. rewrite IH by done. by rewrite <- !app_assoc.
Qed.

Lemma renderMarkdown_app (a b s : jsstring) :
  splitLines s = splitLines a ++ splitLines b ->
  renderMarkdown s = renderMarkdown a ++ NL :: renderMarkdown b.
Proof.
  intros Hs. unfold renderMarkdown. rewrite Hs, fmap_app.
  rewrite join_app; [done| |].
  - pose proof (splitLines_nonempty a). by destruct (splitLines a).
  - pose proof (splitLines_nonempty b). by destruct (splitLines b).
Qed.

(** X16.  [renderMarkdown] works line by line: what it makes of two texts
    joined by a line end is what it makes of the first, a newline, and what
    it makes of the second.  The line end is a carriage return with a
    newline, or a newline alone behind a text that does not end with a
    carriage return. *)
Theorem renderMarkdown_lines (a b : jsstring) :
  renderMarkdown (a ++ CR :: NL :: b)
  = renderMarkdown a ++ NL :: renderMarkdown b
  /\ (last a <> Some CR ->
      renderMarkdown (a ++ NL :: b)
      = renderMarkdown a ++ NL :: renderMarkdown b).
Proof.
  split.
  - apply renderMarkdown_app, splitLines_CRNL.
  - intros Hlast. by apply renderMarkdown_app, splitLines_NL.
Qed.

Lemma renderMarkdown_lines_witness :
  renderMarkdown (lit "# a" ++ CR :: NL :: lit "b")
  = renderMarkdown (lit "# a") ++ NL :: renderMarkdown (lit "b")
  /\ renderMarkdown (lit "# a" ++ NL :: lit "b")
     = renderMarkdown (lit "# a") ++ NL :: renderMarkdown (lit "b").
Proof.
  destruct (renderMarkdown_lines (lit "# a") (lit "b")) as [H1 H2].
  split; [exact H1|]. apply H2. discriminate.
Defined.

(** ** What the parser gives as properties *)

Lemma splitNL_no_NL (s l : jsstring) : l ∈ splitNL s -> NL ∉ l.
Proof.
  revert l. induction s as [|c s IH]; intros l.
  - cbn [splitNL]. intros ->%list_elem_of_singleton. apply not_elem_of_nil.
  - cbn [splitNL]. destruct (N.eqb_spec c NL) as [->|Hc].
    + destruct (startsWith [NL] s); [apply IH|].
      intros [->|Hin]%elem_of_cons; [apply not_elem_of_nil|by apply IH].
    + destruct (splitNL s) as [|piece pieces].
      * intros ->%list_elem_of_singleton.
        apply not_elem_of_cons. split; [congruence|apply not_elem_of_nil].
      * intros [->|Hin]%elem_of_cons.
        -- apply not_elem_of_cons. split; [congruence|]. apply IH. left.
        -- apply IH. by right.
Qed.

Lemma dropWhile_elem (P : N -> bool) (s : jsstring) (c : N) :
  c ∈ dropWhile P s -> c ∈ s.
Proof.
  induction s as [|d s IH]; [done|]. simpl.
  destruct (P d); [|done]. intros H. right. by apply IH.
Qed.

Lemma trim_elem (s : jsstring) (c : N) : c ∈ trim s -> c ∈ s.
Proof.
  unfold trim. intros H.
  apply list_elem_of_In, in_rev, list_elem_of_In, dropWhile_elem in H.
  apply list_elem_of_In, in_rev, list_elem_of_In in H.
  by apply dropWhile_elem in H.
Qed.

Lemma dropWhile_headOK (s : jsstring) : headOK (dropWhile isSpace s).
Proof.
  induction s as [|c s IH]; [done|]. simpl.
  destruct (isSpace c) eqn:E; [done|]. simpl. done.
Qed.

Lemma dropWhile_snoc (P : N -> bool) (s : jsstring) (c : N) :
  P c = false -> dropWhile P (s ++ [c]) = dropWhile P s ++ [c].
Proof.
  intros Hc. induction s as [|d s IH]; simpl; [by rewrite Hc|].
  by destruct (P d).
Qed.

Lemma trim_idempotent (s : jsstring) : trim (trim s) = trim s.
Proof.
  apply trim_keep.
  - unfold trim. pose proof (dropWhile_headOK s) as Hh.
    destruct (dropWhile isSpace s) as [|c t]; [done|].
    simpl in Hh. simpl rev.
    rewrite dropWhile_snoc by done. rewrite rev_app_distr. done.
  - unfold trim. rewrite rev_involutive. apply dropWhile_headOK.
Qed.

Lemma propLine_parts (line key value : jsstring) :
  propLine line key value ->
  ((ch ":") ∉ key) /\ (NL ∉ value) /\ (CR ∉ value)
  /\ exists rest, line = key ++ rest.
Proof.
  intros (ws & -> & _ & Hcolon & _ & _ & Hterm).
  split; [done|]. rewrite forallb_forall in Hterm.
  repeat split.
  - intros Hin%list_elem_of_In%Hterm. done.
  - intros Hin%list_elem_of_In%Hterm. done.
  - eauto.
Qed.

(** X17.  Every property that [parseFrontMatter] returns has a key without
    colon and without newline that is not [__proto__], a value without
    newline and without carriage return, and neither starts or ends with
    white space. *)
Theorem parseFrontMatter_props_wf (text k v : jsstring) :
  props (parseFrontMatter text) !! k = Some v ->
  trim k = k /\ ((ch ":") ∉ k) /\ (NL ∉ k) /\ k <> lit "__proto__"
  /\ trim v = v /\ (NL ∉ v) /\ (CR ∉ v).
Proof.
  unfold parseFrontMatter. cbv zeta.
  destruct (startsWith opening text);
    [|cbn [props]; by rewrite lookup_empty].
  destruct (indexOf closing 4 text) as [e|];
    [|cbn [props]; by rewrite lookup_empty].
  cbn [props]. unfold headerProps. intros Hk.
  apply foldl_addProp_lookup in Hk as [Hproto Hlast].
  destruct Hlast
    as (before & line & after & key & value & Hlines & Hline & <- & <- & _).
  destruct (propLine_parts _ _ _ Hline) as (Hcolon & Hnl & Hcr & rest & ->).
  assert (Hin : NL ∉ key ++ rest).
  { apply (splitNL_no_NL (trim (slice 4 e text))).
    rewrite Hlines. apply elem_of_app. right. left. }
  apply not_elem_of_app in Hin as [Hkey _].
  split; [apply trim_idempotent|].
  split; [by intros ?%trim_elem|].
  split; [by intros ?%trim_elem|].
  split; [done|].
  split; [apply trim_idempotent|].
  split; by intros ?%trim_elem.
Qed.

Lemma parseFrontMatter_props_wf_witness :
  trim (lit "priority") = lit "priority"
  /\ ((ch ":") ∉ lit "priority") /\ (NL ∉ lit "priority")
  /\ lit "priority" <> lit "__proto__"
  /\ trim (lit "high") = lit "high"
  /\ (NL ∉ lit "high") /\ (CR ∉ lit "high").
Proof.
  apply (parseFrontMatter_props_wf scenario3 (lit "priority") (lit "high")).
  vm_compute. reflexivity.
Defined.

(** ** The handlers of [NotesView] *)

Lemma NotesView_createNote_opens (now : Z) (title : jsstring)
    (v : NotesView.View) :
  inherited title = false \/ is_Some (NotesView.notes v !! title) ->
  exists v',
    NotesView.thenSelect title (NotesView.createNote now title v) = Ret v'
    /\ opens now title v v'.
Proof.
  intros Hok. unfold NotesView.createNote, opens.
  destruct (NotesView.notes v !! title) as [r|] eqn:E.
  - eexists. split; [reflexivity|]. cbn [NotesView.notes NotesView.current].
    rewrite insert_id by done. split; [done|].
    by rewrite isSet_own by (by exists r).
  - destruct Hok as [Hin|[? ?]]; [|done]. rewrite Hin.
    eexists. split; [reflexivity|]. cbn [NotesView.notes NotesView.current].
    split; [done|]. by rewrite isSet_free.
Qed.

(** X18.  [openNote(title)] always runs to its end, and so does the button
    New Note for a non-empty answer that is a note or names no member of
    [Object.prototype]: the title is selected; when [notes[title]] was set
    the notes stay exactly as they are, so asking for a note that exists
    neither alerts nor overwrites; when it was not set the notes are the
    old ones and the empty note of that title, stamped with the time of the
    call. *)
Theorem NotesView_openNote_newNote (now : Z) (title : jsstring)
    (v : NotesView.View) :
  (exists v', NotesView.openNote now title v = Ret v' /\ opens now title v v')
  /\ (title <> [] ->
      inherited title = false \/ is_Some (NotesView.notes v !! title) ->
      exists v', NotesView.newNote (Some title) now v = Ret v'
                 /\ opens now title v v').
Proof.
  split.
  - unfold NotesView.openNote.
    destruct (isSet (NotesView.notes v) title) eqn:E.
    + eexists. split; [reflexivity|]. unfold opens.
      split; [done|]. by rewrite E.
    + apply NotesView_createNote_opens. left.
      unfold isSet in E. by apply orb_false_iff in E as [_ E].
  - intros Hne Hok. unfold NotesView.newNote.
    destruct title as [|c title]; [done|].
    by apply NotesView_createNote_opens.
Qed.

Lemma NotesView_openNote_newNote_witness :
  (exists v', NotesView.openNote 9 (lit "Work")
                (NotesView.mkView (notes (data homeOnly)) (lit "Home"))
              = Ret v'
              /\ opens 9 (lit "Work")
                   (NotesView.mkView (notes (data homeOnly)) (lit "Home")) v')
  /\ (exists v', NotesView.newNote (Some (lit "Work")) 9
                   (NotesView.mkView (notes (data homeOnly)) (lit "Home"))
                 = Ret v'
                 /\ opens 9 (lit "Work")
                      (NotesView.mkView (notes (data homeOnly)) (lit "Home"))
                      v'
                 /\ NotesView.notes v' !! lit "Work" = Some (mkNote [] 9)
                 /\ NotesView.notes v' !! lit "Home"
                    = Some (mkNote (lit "Welcome") 1)).
Proof.
  destruct (NotesView_openNote_newNote 9 (lit "Work")
              (NotesView.mkView (notes (data homeOnly)) (lit "Home")))
    as [Hopen Hnew].
  split; [exact Hopen|].
  destruct Hnew as (v' & Hret & Hcur & Hnotes);
    [discriminate|left; vm_compute; reflexivity|].
  exists v'. split; [exact Hret|]. split; [by split|].
  rewrite Hnotes. split; vm_compute; reflexivity.
Defined.

(** X19.  A confirmed [deleteNote(title)] of [NotesView] takes the record
    of [title] out of the notes and keeps the others; whatever note was
    current, the selection becomes a note that is left, or Home when none
    is left.  No note has the empty title. *)
Theorem NotesView_deleteNote_spec
    (ownKeys : gmap jsstring Note -> list jsstring)
    (title : jsstring) (v : NotesView.View) :
  (forall m k, k ∈ ownKeys m <-> is_Some (m !! k)) ->
  NotesView.notes v !! [] = None ->
  let v' := NotesView.deleteNote ownKeys true title v in
  NotesView.notes v' = delete title (NotesView.notes v)
  /\ (NotesView.notes v' = ∅ -> NotesView.current v' = lit "Home")
  /\ (NotesView.notes v' <> ∅ ->
      is_Some (NotesView.notes v' !! NotesView.current v')).
Proof.
  intros Hkeys Hempty v'. subst v'. unfold NotesView.deleteNote.
  cbn [negb NotesView.notes NotesView.current].
  change (match filter (fun t => t <> title) (ownKeys (NotesView.notes v))
          with
          | [] => lit "Home"
          | [] :: _ => lit "Home"
          | (a :: t) :: _ => a :: t
          end)
    with (nextTitle title (ownKeys (NotesView.notes v))).
  split; [done|].
  destruct (nextTitle_cases title (ownKeys (NotesView.notes v)))
    as [[Hhome Hall] | [[Hhome [Hin Hne]] | [Hin Hne]]].
  - split; [done|]. intros Hnonempty. exfalso. apply Hnonempty.
    apply map_eq. intros k. rewrite lookup_empty.
    destruct (decide (k = title)) as [->|Hk]; [apply lookup_delete_eq|].
    rewrite lookup_delete_ne by done.
    destruct (NotesView.notes v !! k) as [n|] eqn:E; [|done].
    exfalso. apply Hk, Hall, Hkeys. by exists n.
  - apply Hkeys in Hin. rewrite Hempty in Hin. by destruct Hin.
  - apply Hkeys in Hin. split.
    + intros Hnone. exfalso.
      assert (Hl : delete title (NotesView.notes v)
                   !! nextTitle title (ownKeys (NotesView.notes v)) = None)
        by (rewrite Hnone; apply lookup_empty).
      rewrite lookup_delete_ne in Hl by done.
      rewrite Hl in Hin. by destruct Hin.
    + intros _. by rewrite lookup_delete_ne.
Qed.

Lemma NotesView_deleteNote_spec_witness :
  let v := NotesView.mkView (notes (data twoNotes)) (lit "Home") in
  let v' := NotesView.deleteNote keysOf true (lit "Work") v in
  NotesView.notes v' = delete (lit "Work") (NotesView.notes v)
  /\ (NotesView.notes v' = ∅ -> NotesView.current v' = lit "Home")
  /\ (NotesView.notes v' <> ∅ ->
      is_Some (NotesView.notes v' !! NotesView.current v')).
Proof.
  apply (NotesView_deleteNote_spec keysOf (lit "Work")
           (NotesView.mkView (notes (data twoNotes)) (lit "Home"))).
  - intros m k. apply keysOf_spec.
  - vm_compute. reflexivity.
Defined.

(** ** Wiki-links in the preview of [NotesView] *)

Lemma wikiParts_skip (n : nat) (pending s : jsstring) :
  NotesView.wikiParts n pending s = NotesView.wikiParts 0 pending (drop n s).
Proof.
  revert n. induction s as [|c s IH]; intros [|n]; try done.
  cbn [NotesView.wikiParts drop]. apply IH.
Qed.

Lemma wikiParts_prefix (pending pre s : jsstring) :
  (ch "[") ∉ pre ->
  NotesView.wikiParts 0 pending (pre ++ s)
  = NotesView.wikiParts 0 (rev pre ++ pending) s.
Proof.
  revert pending. induction pre as [|a pre IH]; intros pending Hb; [done|].
  apply not_elem_of_cons in Hb as [Ha Hpre].
  cbn [app NotesView.wikiParts]. unfold matchSpan.
  change (lit "[[") with [(ch "["); (ch "[")]. cbn [startsWith].
  rewrite (proj2 (N.eqb_neq (ch "[") a)) by done. cbn [andb].
  rewrite IH by done. cbn [rev]. by rewrite <- app_assoc.
Qed.

Lemma wikiParts_match (pending group s : jsstring) (c : N) :
  matchSpan (lit "[[") (ch "]") (lit "]]") (c :: s) = Some group ->
  NotesView.wikiParts 0 pending (c :: s)
  = NotesView.flush pending
    ++ NotesView.LinkTo (trim group)
       :: NotesView.wikiParts (length group + 3) [] s.
Proof. intros H. cbn [NotesView.wikiParts]. by rewrite H. Qed.

Lemma wikiParts_token (pending g post : jsstring) :
  g <> [] -> (ch "]") ∉ g ->
  NotesView.wikiParts 0 pending (lit "[[" ++ g ++ lit "]]" ++ post)
  = NotesView.flush pending
    ++ NotesView.LinkTo (trim g) :: NotesView.wikiParts 0 [] post.
Proof.
  intros Hne Hx.
  assert (Hm : matchSpan (lit "[[") (ch "]") (lit "]]")
                 (lit "[[" ++ g ++ lit "]]" ++ post) = Some g)
    by (apply (matchSpan_spec (lit "[[") (ch "]") [(ch "]")]); eauto).
  change (lit "[[" ++ g ++ lit "]]" ++ post)
    with ((ch "[") :: [(ch "[")] ++ g ++ lit "]]" ++ post) in *.
  rewrite (wikiParts_match pending g) by done. do 2 f_equal.
  rewrite wikiParts_skip. f_equal.
  rewrite !app_assoc.
  replace (length g + 3) with (length (([(ch "[")] ++ g) ++ lit "]]"))
    by (rewrite !length_app; simpl; lia).
  apply drop_app_length.
Qed.

(** X20.  [renderWikiLinks] on a text that holds a wiki-link token behind
    a text [pre] without opening bracket: it pushes [pre], when it is not
    empty, then the button that opens the trimmed text of the token, and
    goes on behind the token. *)
Theorem renderWikiLinks_token (pre g post : jsstring) :
  (ch "[") ∉ pre -> g <> [] -> (ch "]") ∉ g ->
  NotesView.renderWikiLinks (pre ++ lit "[[" ++ g ++ lit "]]" ++ post)
  = match pre with
    | [] => []
    | _ :: _ => [NotesView.Text pre]
    end
    ++ NotesView.LinkTo (trim g) :: NotesView.renderWikiLinks post.
Proof.
  intros Hpre Hne Hx. unfold NotesView.renderWikiLinks.
  rewrite wikiParts_prefix by done. rewrite app_nil_r.
  rewrite wikiParts_token by done. f_equal.
  unfold NotesView.flush. destruct pre as [|c pre]; [done|].
  rewrite rev_involutive.
  destruct (rev (c :: pre)) as [|d r] eqn:E; [|done].
  apply (f_equal (@length N)) in E. rewrite length_rev in E. done.
Qed.

Lemma renderWikiLinks_token_witness :
  NotesView.renderWikiLinks
    (lit "see " ++ lit "[[" ++ lit " Bob " ++ lit "]]" ++ lit "!")
  = match lit "see " with
    | [] => []
    | _ :: _ => [NotesView.Text (lit "see ")]
    end
    ++ NotesView.LinkTo (trim (lit " Bob "))
       :: NotesView.renderWikiLinks (lit "!").
Proof.
  apply (renderWikiLinks_token (lit "see ") (lit " Bob ") (lit "!")).
  - apply (proj1 (forallb_neq (ch "[") (lit "see "))). reflexivity.
  - discriminate.
  - apply (proj1 (forallb_neq (ch "]") (lit " Bob "))). reflexivity.
Defined.

(** ** The list of titles *)

Lemma insertBy_Permutation (f : jsstring -> Z) (x : jsstring)
    (l : list jsstring) :
  insertBy (fun a b => (f b - f a)%Z) x l ≡ₚ x :: l.
Proof.
  induction l as [|y l IH]; [done|]. cbn [insertBy].
  destruct (f y - f x <=? 0)%Z; [done|].
  rewrite IH. apply Permutation_swap.
Qed.

Lemma insertBy_sorted (f : jsstring -> Z) (x : jsstring)
    (l : list jsstring) :
  StronglySorted (fun a b => (f b <= f a)%Z) l ->
  StronglySorted (fun a b => (f b <= f a)%Z)
    (insertBy (fun a b => (f b - f a)%Z) x l).
Proof.
  induction l as [|y l IH]; intros Hl.
  - repeat constructor.
  - apply StronglySorted_inv in Hl as [Hl Hy]. cbn [insertBy].
    destruct (Z.leb_spec (f y - f x) 0) as [Hle|Hgt].
    + constructor; [by constructor|]. constructor; [lia|].
      eapply Forall_impl; [exact Hy|]. cbv beta. intros z Hz. lia.
    + constructor; [by apply IH|]. rewrite insertBy_Permutation.
      constructor; [lia|done].
Qed.

Lemma insertBy_stable (f : jsstring -> Z) (u : Z) (x : jsstring)
    (l : list jsstring) :
  filter (fun k => f k = u) (insertBy (fun a b => (f b - f a)%Z) x l)
  = filter (fun k => f k = u) (x :: l).
Proof.
  induction l as [|y l IH]; [done|]. cbn [insertBy].
  destruct (Z.leb_spec (f y - f x) 0) as [Hle|Hgt]; [done|].
  rewrite filter_cons, IH, !filter_cons.
  destruct (decide (f y = u)) as [Hy|Hy]; [|done].
  destruct (decide (f x = u)) as [Hx|Hx]; [|done].
  lia.
Qed.

Lemma sortBy_spec (f : jsstring -> Z) (l : list jsstring) :
  sortBy (fun a b => (f b - f a)%Z) l ≡ₚ l
  /\ StronglySorted (fun a b => (f b <= f a)%Z)
       (sortBy (fun a b => (f b - f a)%Z) l)
  /\ forall u, filter (fun k => f k = u) (sortBy (fun a b => (f b - f a)%Z) l)
               = filter (fun k => f k = u) l.
Proof.
  induction l as [|x l (IHp & IHs & IHf)]; [repeat split; constructor|].
  unfold sortBy in *. cbn [foldr].
  split; [by rewrite insertBy_Permutation, IHp|].
  split; [by apply insertBy_sorted|].
  intros u. by rewrite insertBy_stable, !filter_cons, IHf.
Qed.

(** X21.  [titles] lists every key of the notes once, as [Object.keys]
    does, a note updated later in front of a note updated earlier, and the
    notes updated at the same time in the order of [Object.keys]. *)
Theorem titles_sorted (ownKeys : gmap jsstring Note -> list jsstring)
    (obj : gmap jsstring Note) :
  titles ownKeys obj ≡ₚ ownKeys obj
  /\ StronglySorted (newerFirst obj) (titles ownKeys obj)
  /\ forall u, filter (fun k => updatedOf obj k = u) (titles ownKeys obj)
               = filter (fun k => updatedOf obj k = u) (ownKeys obj).
Proof. apply (sortBy_spec (updatedOf obj)). Qed.

(** X22.  After [setContent(v)] at a time later than the time of every
    other note, the current title is the first of [titles]. *)
Theorem titles_edited_first (ownKeys : gmap jsstring Note -> list jsstring)
    (v : jsstring) (now : Z) (st : App) :
  (forall m k, k ∈ ownKeys m <-> is_Some (m !! k)) ->
  (forall k r, notes (data st) !! k = Some r -> k <> current st ->
               (updated r < now)%Z) ->
  head (titles ownKeys (notes (data (setContent v now st))))
  = Some (current st).
Proof.
  intros Hkeys Hold.
  set (obj := notes (data (setContent v now st))).
  destruct (sortBy_spec (updatedOf obj) (ownKeys obj)) as (Hp & Hs & _).
  fold (titles ownKeys obj) in Hp, Hs.
  assert (Hcur : obj !! current st = Some (mkNote v now))
    by apply lookup_insert_eq.
  assert (Hin : current st ∈ titles ownKeys obj).
  { rewrite Hp. apply Hkeys. by eexists. }
  destruct (titles ownKeys obj) as [|h t] eqn:E;
    [by apply elem_of_nil in Hin|].
  cbn [head]. f_equal.
  destruct (decide (h = current st)) as [|Hne]; [done|]. exfalso.
  apply elem_of_cons in Hin as [Hin|Hin]; [done|].
  apply StronglySorted_inv in Hs as [_ Hall].
  rewrite Forall_forall in Hall. specialize (Hall _ Hin).
  assert (Hh : h ∈ ownKeys obj) by (rewrite <- Hp; left).
  apply Hkeys in Hh as [r Hr].
  unfold updatedOf in Hall. rewrite Hcur, Hr in Hall. cbn [updated] in Hall.
  unfold obj, setContent, setData in Hr. cbn [data notes] in Hr.
  rewrite lookup_insert_ne in Hr by done.
  specialize (Hold h r Hr Hne). lia.
Qed.

Lemma titles_edited_first_witness :
  head (titles keysOf (notes (data (setContent (lit "x") 9 twoNotes))))
  = Some (current twoNotes).
Proof.
  apply (titles_edited_first keysOf (lit "x") 9 twoNotes).
  - intros m k. apply keysOf_spec.
  - intros k r Hk Hne. unfold twoNotes in Hk, Hne. cbn in Hk, Hne.
    apply lookup_insert_Some in Hk as [[_ <-]|[_ Hk]]; [simpl; lia|].
    apply lookup_singleton_Some in Hk as [<- _]. done.
Defined.

(** ** The search box *)



(** ** The pattern of the backlink search *)

Lemma literalOf_escapeRegExp (s rest : jsstring) :
  literalOf (escapeRegExp s ++ rest) = (fun t => s ++ t) <$> literalOf rest.
Proof.
  induction s as [|c s IH].
  - cbn [escapeRegExp flat_map app]. by destruct (literalOf rest).
  - unfold escapeRegExp in *. cbn [flat_map].
    destruct (isSyntaxChar c) eqn:E.
    + cbn [app literalOf]. rewrite N.eqb_refl, E, IH.
      by destruct (literalOf rest).
    + cbn [app literalOf]. rewrite E, IH.
      destruct (N.eqb_spec c BS) as [->|_]; [done|].
      by destruct (literalOf rest).
Qed.

(** X24.  The pattern that the backlink search builds for a title, with
    [escapeRegExp], is a pattern of characters that stand for themselves:
    it matches the texts that hold the title between double brackets,
    whatever characters the title is made of. *)
Theorem escapeRegExp_literal (cur : jsstring) :
  literalOf (linkPattern cur) = Some (lit "[[" ++ cur ++ lit "]]").
Proof.
  unfold linkPattern.
  change (literalOf ([BS; (ch "["); BS; (ch "[")] ++ escapeRegExp cur
                     ++ [BS; (ch "]"); BS; (ch "]")]))
    with (cons (ch "[") <$> (cons (ch "[") <$>
            literalOf (escapeRegExp cur ++ [BS; (ch "]"); BS; (ch "]")]))).
  rewrite literalOf_escapeRegExp. done.
Qed.

(** ** The size of the editor font *)

(** X25.  After any clicks on the two font buttons the size in the state
    is an even number from 12 to 28, and a size has been written to the
    style property exactly when there was a click.  The next click on [-]
    at 12 leaves the state at 12 and writes 10, and above 12 it takes 2
    from the state and writes the new state; the next click on [+] at 28
    leaves the state at 28 and writes 30, and below 28 it adds 2 to the
    state and writes the new state.  So the size written is the size in
    the state, but after a click on [-] at 12 or on [+] at 28. *)
Theorem font_range (clicks : list bool) :
  let f := foldl click initialFont clicks in
  (12 <= edFont f <= 28)%Z
  /\ (exists k, edFont f = 2 * k)%Z
  /\ (cssFont f = None <-> clicks = [])
  /\ click f false
     = (if (edFont f =? 12)%Z then mkFont 12 (Some 10%Z)
        else mkFont (edFont f - 2) (Some (edFont f - 2)%Z))
  /\ click f true
     = (if (edFont f =? 28)%Z then mkFont 28 (Some 30%Z)
        else mkFont (edFont f + 2) (Some (edFont f + 2)%Z))
  /\ match cssFont f with
     | None => clicks = []
     | Some px =>
       px = edFont f \/ (px = 10 /\ edFont f = 12)%Z
       \/ (px = 30 /\ edFont f = 28)%Z
     end.
Proof.
  cbv zeta.
  assert (Hinv : (12 <= edFont (foldl click initialFont clicks) <= 28)%Z
    /\ (exists k, edFont (foldl click initialFont clicks) = 2 * k)%Z
    /\ (cssFont (foldl click initialFont clicks) = None <-> clicks = [])
    /\ match cssFont (foldl click initialFont clicks) with
       | None => clicks = []
       | Some px =>
         px = edFont (foldl click initialFont clicks)
         \/ (px = 10 /\ edFont (foldl click initialFont clicks) = 12)%Z
         \/ (px = 30 /\ edFont (foldl click initialFont clicks) = 28)%Z
       end).
  { induction clicks as [|c clicks IH] using rev_ind.
    - cbn. split; [lia|]. split; [by exists 8%Z|done].
    - rewrite foldl_snoc.
      destruct IH as (Hr & [k Hk] & _).
      set (f := foldl click initialFont clicks) in *.
      assert (Hsnoc : clicks ++ [c] <> []) by (by destruct clicks).
      destruct c; cbn [click fontPlus fontMinus edFont cssFont].
      + split; [lia|]. split; [exists (Z.min 14 (k + 1)); lia|].
        split; [done|lia].
      + split; [lia|]. split; [exists (Z.max 6 (k - 1)); lia|].
        split; [done|lia]. }
  destruct Hinv as (Hr & [k Hk] & Hnone & Hcss).
  set (f := foldl click initialFont clicks) in *.
  split; [done|]. split; [by exists k|]. split; [done|].
  split; [|split; [|done]].
  - unfold click, fontMinus.
    destruct (Z.eqb_spec (edFont f) 12) as [->|Hne]; [done|].
    f_equal. lia.
  - unfold click, fontPlus.
    destruct (Z.eqb_spec (edFont f) 28) as [->|Hne]; [done|].
    f_equal. lia.
Qed.

(** ** The third application *)

(** X26.  In the application with strings as notes, whatever the user
    does, the current title names a note, and no note is ever removed. *)
Theorem Simple_current_exists (evs : list Simple.Event)
    (st st' : Simple.App) :
  is_Some (Simple.notes st !! Simple.current st) ->
  Simple.run st evs = Some st' ->
  is_Some (Simple.notes st' !! Simple.current st')
  /\ forall k, is_Some (Simple.notes st !! k) ->
               is_Some (Simple.notes st' !! k).
Proof.
  revert st. induction evs as [|ev evs IH]; intros st Hcur.
  - intros [= <-]. done.
  - cbn [Simple.run]. destruct (Simple.step st ev) as [st1|] eqn:E; [|done].
    intros Hrun.
    assert (Hstep : is_Some (Simple.notes st1 !! Simple.current st1)
              /\ forall k, is_Some (Simple.notes st !! k) ->
                           is_Some (Simple.notes st1 !! k)).
    { destruct ev as [[[|c t]|]|t|value]; cbn in E.
      - by injection E as <-.
      - injection E as <-. cbn. split.
        + by apply lookup_insert_is_Some'; right.
        + intros k Hk. by apply lookup_insert_is_Some'; right.
      - by injection E as <-.
      - case_bool_decide as Ht; [|done]. by injection E as <-.
      - injection E as <-. cbn. split.
        + by apply lookup_insert_is_Some'; left.
        + intros k Hk. by apply lookup_insert_is_Some'; right. }
    destruct Hstep as [Hcur1 Hkeep].
    destruct (IH st1 Hcur1 Hrun) as [Hcur' Hkeep'].
    split; [done|]. intros k Hk. by apply Hkeep', Hkeep.
Qed.

Lemma Simple_current_exists_witness :
  exists st',
    Simple.run Simple.initial simpleSession = Some st'
    /\ is_Some (Simple.notes st' !! Simple.current st')
    /\ forall k, is_Some (Simple.notes Simple.initial !! k) ->
                 is_Some (Simple.notes st' !! k).
Proof.
  destruct (Simple.run Simple.initial simpleSession) as [st'|] eqn:E;
    [|vm_compute in E; discriminate E].
  exists st'. split; [reflexivity|].
  apply (Simple_current_exists simpleSession Simple.initial st').
  - vm_compute. eauto.
  - exact E.
Defined.

(** ** The database *)

Lemma whenSelected_Some {Value} (v v' : Database.View Value)
    (k : option (Database.View Value)) :
  Database.whenSelected v k = Some v' -> k = Some v'.
Proof. unfold Database.whenSelected. by destruct (Database.selected v). Qed.

Lemma inEditor_Some {Value} (v v' : Database.View Value)
    (k : Database.Collection Value -> option (Database.View Value)) :
  Database.inEditor v k = Some v' ->
  exists col, Database.collections v !! Database.selected v = Some col
              /\ k col = Some v'.
Proof.
  unfold Database.inEditor. intros H%whenSelected_Some.
  destruct (Database.collections v !! Database.selected v) as [col|];
    [|done].
  by exists col.
Qed.

Lemma atIndex_Some {Value A} (idx : nat) (l : list A)
    (v' : Database.View Value) (k : option (Database.View Value)) :
  Database.atIndex idx l k = Some v' -> k = Some v' /\ idx < length l.
Proof. unfold Database.atIndex. by case_bool_decide. Qed.

Lemma setColumns_OK {Value} (cols : list Database.Column)
    (col : Database.Collection Value) (v : Database.View Value) :
  selectedOK (Database.setColumns cols col v).
Proof. right. cbn. rewrite lookup_insert_eq. by eexists. Qed.

Lemma setRows_OK {Value} (rs : list (Database.Row Value))
    (col : Database.Collection Value) (v : Database.View Value) :
  selectedOK (Database.setRows rs col v).
Proof. right. cbn. rewrite lookup_insert_eq. by eexists. Qed.

Lemma firstKey_OK {Value}
    (ownKeys : gmap jsstring (Database.Collection Value) -> list jsstring)
    (m : gmap jsstring (Database.Collection Value)) :
  (forall m k, k ∈ ownKeys m -> is_Some (m !! k)) ->
  selectedOK (Database.mkView m (Database.firstKey (ownKeys m))).
Proof.
  intros Hkeys. unfold selectedOK. cbn.
  destruct (ownKeys m) as [|k ks] eqn:E; [by left|].
  right. apply Hkeys. rewrite E. left.
Qed.

Lemma step_selectedOK {Value}
    (ownKeys : gmap jsstring (Database.Collection Value) -> list jsstring)
    (v v' : Database.View Value) (ev : Database.Event Value) :
  (forall m k, k ∈ ownKeys m -> is_Some (m !! k)) ->
  picksByName ev ->
  Database.step ownKeys v ev = Some v' -> selectedOK v -> selectedOK v'.
Proof.
  intros Hkeys Hpick Hstep Hv. destruct ev; cbn [Database.step] in Hstep.
  - unfold Database.addCollection in Hstep.
    destruct prompted as [[|c n]|]; cbn in Hstep; try by injection Hstep as <-.
    destruct (isSet (Database.collections v) (c :: n));
      cbn in Hstep; injection Hstep as <-; [done|].
    right. cbn. rewrite lookup_insert_eq. by eexists.
  - case_bool_decide as Hn; [|done]. injection Hstep as <-.
    right. cbn [Database.selected Database.collections].
    cbn [picksByName] in Hpick. by rewrite Hpick.
  - apply whenSelected_Some in Hstep.
    unfold Database.renameCollection in Hstep.
    destruct prompted as [[|c n]|]; cbn in Hstep; try by injection Hstep as <-.
    case_bool_decide as Hsame; cbn in Hstep; [by injection Hstep as <-|].
    destruct (isSet (Database.collections v) (c :: n));
      cbn in Hstep; [by injection Hstep as <-|].
    destruct (Database.collections v !! Database.selected v) as [col|];
      cbn in Hstep; [|done].
    injection Hstep as <-. right. cbn.
    rewrite lookup_delete_ne by done. rewrite lookup_insert_eq. by eexists.
  - apply whenSelected_Some in Hstep. injection Hstep as <-.
    unfold Database.deleteCollection.
    destruct confirmed; cbn [negb]; [by apply firstKey_OK|done].
  - apply inEditor_Some in Hstep as (col & _ & Hstep).
    destruct (Database.stateOf _); [|done].
    injection Hstep as <-. apply setColumns_OK.
  - apply inEditor_Some in Hstep as (col & _ & [[= <-] _]%atIndex_Some).
    apply setColumns_OK.
  - apply inEditor_Some in Hstep as (col & _ & [[= <-] _]%atIndex_Some).
    apply setColumns_OK.
  - apply inEditor_Some in Hstep as (col & _ & [[= <-] _]%atIndex_Some).
    apply setColumns_OK.
  - apply inEditor_Some in Hstep as (col & _ & [= <-]). apply setRows_OK.
  - apply inEditor_Some in Hstep as (col & _ & Hstep).
    destruct (Database.updateCell _ _ _ _); [|done].
    injection Hstep as <-. apply setRows_OK.
  - apply inEditor_Some in Hstep as (col & _ & [[= <-] _]%atIndex_Some).
    apply setRows_OK.
Qed.

Lemma collectionKeys_sound
    (m : gmap jsstring (Database.Collection jsstring)) (k : jsstring) :
  k ∈ collectionKeys m -> is_Some (m !! k).
Proof.
  unfold collectionKeys. rewrite list_elem_of_fmap.
  intros [[k' n] [-> Hin]]. apply elem_of_map_to_list in Hin. by exists n.
Qed.

(** X27.  In the select of the database page, the choice of the
    collection [name] sets [selected] to the value of its option, which is
    [name] with its white space collapsed and stripped.  From the state
    after mounting, and whatever the user does, as long as every collection
    chosen in the select has a name that is the value of its option,
    [selected] is empty or names a collection, so that the editors are
    given the columns and rows of a collection. *)
Theorem Database_selected_exists {Value}
    (ownKeys : gmap jsstring (Database.Collection Value) -> list jsstring)
    (stored : gmap jsstring (Database.Collection Value))
    (evs : list (Database.Event Value)) (v : Database.View Value) :
  (forall v0 name,
     Database.step ownKeys v0 (Database.SelectCollection name)
     = if bool_decide (is_Some (Database.collections v0 !! name))
       then Some (Database.mkView (Database.collections v0)
                    (Database.optionValue name))
       else None)
  /\ ((forall m k, k ∈ ownKeys m -> is_Some (m !! k)) ->
      Forall picksByName evs ->
      Database.run ownKeys (Database.mounted ownKeys stored) evs = Some v ->
      selectedOK v).
Proof.
  split; [done|]. intros Hkeys.
  assert (Hrun : forall v0, selectedOK v0 -> Forall picksByName evs ->
            Database.run ownKeys v0 evs = Some v -> selectedOK v).
  { induction evs as [|ev evs IH]; intros v0 H0 Hpicks; cbn [Database.run].
    - by intros [= <-].
    - apply Forall_cons in Hpicks as [Hpick Hpicks].
      destruct (Database.step ownKeys v0 ev) as [v1|] eqn:E; [|done].
      apply IH; [|done]. by eapply step_selectedOK. }
  apply Hrun. by apply firstKey_OK.
Qed.

Lemma Database_selected_exists_witness :
  exists v,
    Database.run collectionKeys (Database.mounted collectionKeys ∅)
      bookSession = Some v
    /\ Database.selected v = lit "Old Films"
    /\ selectedOK v.
Proof.
  destruct (Database.run collectionKeys (Database.mounted collectionKeys ∅)
              bookSession) as [v|] eqn:E;
    [|vm_compute in E; discriminate E].
  exists v. split; [reflexivity|].
  split; [vm_compute in E; by injection E as <-|].
  apply (proj2 (Database_selected_exists collectionKeys ∅ bookSession v)).
  - apply collectionKeys_sound.
  - unfold bookSession.
    repeat (apply Forall_cons; split;
            [first [exact I | vm_compute; reflexivity]|]).
    constructor.
  - exact E.
Defined.

(** The choice of a collection whose name has blanks at its ends: the
    select delivers the name without them, which names no collection, and
    the editors are given nothing. *)
Lemma Database_select_spaced_name :
  exists v,
    Database.run collectionKeys (Database.mounted collectionKeys ∅)
      spacedSession = Some v
    /\ is_Some (Database.collections v !! lit " a b ")
    /\ Database.selected v = lit "a b"
    /\ Database.collections v !! Database.selected v = None
    /\ ~ selectedOK v
    /\ Database.step collectionKeys v (Database.AddRow (lit "r1")) = None.
Proof.
  destruct (Database.run collectionKeys (Database.mounted collectionKeys ∅)
              spacedSession) as [v|] eqn:E;
    [|vm_compute in E; discriminate E].
  exists v. split; [reflexivity|].
  vm_compute in E. injection E as <-.
  split; [vm_compute; eauto|]. split; [reflexivity|].
  split; [vm_compute; reflexivity|].
  split; [|vm_compute; reflexivity].
  intros [Hsel|[c Hc]]; [discriminate Hsel|].
  vm_compute in Hc. discriminate Hc.
Qed.

(** X28.  [addColumn] keeps the keys of the columns distinct: it leaves the
    columns as they are, or puts a text column with the answer of the
    prompt, which is not empty and is the key of no column, behind them. *)
Theorem addColumn_keeps_keys_distinct (prompted : option jsstring)
    (columns : list Database.Column) :
  NoDup (Database.key <$> columns) ->
  exists cols,
    Database.stateOf (Database.addColumn prompted columns) = Some cols
    /\ NoDup (Database.key <$> cols)
    /\ (cols = columns
        \/ exists k, prompted = Some k /\ k <> []
                     /\ cols = columns ++ [Database.mkColumn k (lit "text")]).
Proof.
  intros Hnd. unfold Database.addColumn.
  destruct prompted as [[|c k]|]; try by (eexists; eauto).
  destruct (existsb _ columns) eqn:E; [by (eexists; eauto)|].
  eexists. split; [reflexivity|]. split; [|right; by eexists].
  rewrite fmap_app. cbn. apply NoDup_app. split; [done|]. split.
  - intros x Hx ->%list_elem_of_singleton.
    apply list_elem_of_fmap in Hx as (col & Hk & Hin).
    assert (Ht : existsb (fun c0 => bool_decide (Database.key c0 = c :: k))
                   columns = true).
    { apply existsb_exists. exists col. split; [by apply list_elem_of_In|].
      by apply bool_decide_eq_true. }
    congruence.
  - apply NoDup_singleton.
Qed.

Lemma addColumn_keeps_keys_distinct_witness :
  exists cols,
    Database.stateOf
      (Database.addColumn (Some (lit "age"))
         [Database.mkColumn (lit "name") (lit "text")]) = Some cols
    /\ NoDup (Database.key <$> cols)
    /\ (cols = [Database.mkColumn (lit "name") (lit "text")]
        \/ exists k, Some (lit "age") = Some k /\ k <> []
                     /\ cols = [Database.mkColumn (lit "name") (lit "text")]
                               ++ [Database.mkColumn k (lit "text")]).
Proof.
  apply (addColumn_keeps_keys_distinct (Some (lit "age"))
           [Database.mkColumn (lit "name") (lit "text")]).
  apply NoDup_singleton.
Defined.

(** X29.  [updateCell(ridx, key, value)] throws when there is no row at
    [ridx]; for a row of the table it writes the value into the cell [key]
    of that row and keeps the identifier and the other cells of the row,
    the other rows and the number of rows. *)
Theorem updateCell_spec {Value} (ridx : nat) (k : jsstring) (value : Value)
    (rs : list (Database.Row Value)) :
  (length rs <= ridx -> Database.updateCell ridx k value rs = None)
  /\ (forall r, rs !! ridx = Some r ->
      exists rs' r',
        Database.updateCell ridx k value rs = Some rs'
        /\ rs' !! ridx = Some r'
        /\ Database.id r' = Database.id r
        /\ Database.data r' !! k = Some value
        /\ (forall k', k' <> k ->
              Database.data r' !! k' = Database.data r !! k')
        /\ length rs' = length rs
        /\ forall j, j <> ridx -> rs' !! j = rs !! j).
Proof.
  unfold Database.updateCell. split.
  - intros Hlen. by rewrite lookup_ge_None_2.
  - intros r Hr. rewrite Hr. eexists _, _. split; [reflexivity|].
    assert (Hlt : ridx < length rs) by (by eapply lookup_lt_Some).
    split; [by apply list_lookup_insert_eq|]. cbn.
    split; [done|]. split; [apply lookup_insert_eq|].
    split; [intros k' Hk'; by apply lookup_insert_ne|].
    split; [apply length_insert|].
    intros j Hj. by apply list_lookup_insert_ne.
Qed.

Lemma updateCell_spec_witness :
  Database.updateCell 1 (lit "author") (lit "Eco") [firstRow] = None
  /\ exists rs' r',
       Database.updateCell 0 (lit "author") (lit "Eco") [firstRow] = Some rs'
       /\ rs' !! 0 = Some r'
       /\ Database.id r' = Database.id firstRow
       /\ Database.data r' !! lit "author" = Some (lit "Eco")
       /\ (forall k', k' <> lit "author" ->
             Database.data r' !! k' = Database.data firstRow !! k')
       /\ length rs' = length [firstRow]
       /\ forall j, j <> 0 -> rs' !! j = [firstRow] !! j.
Proof.
  split.
  - apply (proj1 (updateCell_spec 1 (lit "author") (lit "Eco") [firstRow])).
    simpl. lia.
  - apply (proj2 (updateCell_spec 0 (lit "author") (lit "Eco") [firstRow])).
    reflexivity.
Defined.

(** X30.  A row that [addRow] has added is the last one, behind the rows
    that were there, and [deleteRow] at its index gives back the rows
    that were there. *)
Theorem addRow_deleteRow {Value} (newId : jsstring)
    (rs : list (Database.Row Value)) :
  Database.deleteRow (length rs) (Database.addRow newId rs) = rs
  /\ Database.addRow newId rs !! length rs = Some (Database.mkRow newId ∅)
  /\ take (length rs) (Database.addRow newId rs) = rs.
Proof.
  unfold Database.deleteRow, Database.addRow. split; [|split].
  - rewrite without_take_drop, take_app_length.
    rewrite drop_ge by (rewrite length_app; simpl; lia).
    apply app_nil_r.
  - by rewrite lookup_app_r, Nat.sub_diag by lia.
  - apply take_app_length.
Qed.
